(** * Document preprocessing pipeline (main2.py): text cleaning, loading,
      chunking

    A shallow embedding of [clean_text], [load_file], [preprocess_documents],
    [save_to_markdown] and [main] of main2.py, together with the semantics
    of the Python library calls they are built from: [re.sub],
    [str.replace], [str.strip], and the recursive character splitter the
    program instantiates.  (main.py loads one PDF file and prints a page of
    it; it has no part in the pipeline.) *)

From Stdlib Require Import String Ascii DecimalString List.
From Stdlib Require Import NArith Bool Arith Lia.
Import ListNotations.

(* ================================================================== *)
(** * Text *)

(** A Python [str] is a sequence of Unicode code points. *)
Definition char := N.
Bind Scope N_scope with char.
Definition text := list char.

(** Rocq string literals (ASCII) as texts. *)
Definition of_string (s : string) : text :=
  map N_of_ascii (list_ascii_of_string s).

Definition LF : char := 10%N.
Definition SPACE : char := 32%N.
Definition HYPHEN : char := 45%N.
Definition APOSTROPHE : char := 39%N.
Definition QUOTE : char := 34%N.

Definition between (lo hi c : char) : bool := (N.leb lo c && N.leb c hi)%bool.

Definition one_of (l : list char) (c : char) : bool := existsb (N.eqb c) l.

(** [str.isspace] for one code point, which is also the class [\s] of a
    [str] pattern: the white-space code points of the interpreter's Unicode
    database. *)
Definition isspace (c : char) : bool :=
  (between 9 13 c || between 28 32 c
   || one_of [133; 160; 5760; 8232; 8233; 8239; 8287; 12288] c
   || between 8192 8202 c)%N%bool.

Definition ascii_digit (c : char) : bool := between 48 57 c.
Definition ascii_lower (c : char) : bool := between 97 122 c.
Definition ascii_upper (c : char) : bool := between 65 90 c.

(** A lone surrogate is the only code point a [str] can hold that UTF-8
    cannot encode. *)
Definition is_surrogate (c : char) : bool := between 55296 57343 c.

(* ================================================================== *)
(** * Regular expressions: the fragment of [re] used by [clean_text] *)

Module Re.

(** Patterns.  [Cls p] matches one character satisfying [p] (a literal, a
    bracket class, [\s], [\S], [\d]); [Rep lo r] is the greedy [r*]
    ([lo = 0]) or [r+] ([lo = 1]); [Grp] is the capturing group 1 and [Ref]
    the back-reference [\1]; [NotBehind p] and [NotAhead p] are the negative
    look-arounds [(?<!c)] and [(?!c)] for a one-character class. *)
Inductive regex : Type :=
| Cls (p : char -> bool)
| Cat (r1 r2 : regex)
| Alt (r1 r2 : regex)
| Opt (r : regex)
| Rep (lo : nat) (r : regex)
| Grp (r : regex)
| Ref
| NotBehind (p : char -> bool)
| NotAhead (p : char -> bool).

(** The matcher's position in the subject: the text already passed
    (nearest character first), the text still ahead, and group 1. *)
Record mstate : Type := MState {
  before : text;
  after : text;
  grp : option text
}.

Definition step (c : char) (rest : text) (st : mstate) : mstate :=
  MState (c :: before st) rest (grp st).

Fixpoint is_prefix (p s : text) : bool :=
  match p, s with
  | [], _ => true
  | a :: p', b :: s' => (N.eqb a b && is_prefix p' s')%bool
  | _ :: _, [] => false
  end.

(** The text consumed between two positions of one subject. *)
Definition consumed (st st' : mstate) : text :=
  firstn (length (after st) - length (after st')) (after st).

Definition orelse (a b : option mstate) : option mstate :=
  match a with
  | Some x => Some x
  | None => b
  end.

(** The greedy repetition of a matcher [body], at least [lo] times: try one
    more iteration first and, when the rest cannot match after it, stop
    here.  An iteration that consumes nothing ends the loop; [fuel], the
    length of the text ahead when the loop starts, is therefore never the
    reason it stops. *)
Fixpoint rep_loop (body : mstate -> (mstate -> option mstate) -> option mstate)
  (lo : nat) (k : mstate -> option mstate) (fuel cnt : nat) (st : mstate)
  {struct fuel} : option mstate :=
  let stop := if lo <=? cnt then k st else None in
  match fuel with
  | O => stop
  | S fuel' =>
      orelse
        (body st (fun st' =>
           if length (after st') <? length (after st)
           then rep_loop body lo k fuel' (S cnt) st'
           else None))
        stop
  end.

(** Backtracking matcher in continuation-passing style: [run r st k] tries
    the ways [r] can match at [st] in the engine's preference order (left
    alternative first, longest repetition first) and returns the first one
    the continuation [k] accepts. *)
Fixpoint run (r : regex) (st : mstate) (k : mstate -> option mstate)
  {struct r} : option mstate :=
  match r with
  | Cls p =>
      match after st with
      | c :: rest => if p c then k (step c rest st) else None
      | [] => None
      end
  | Cat r1 r2 => run r1 st (fun st' => run r2 st' k)
  | Alt r1 r2 => orelse (run r1 st k) (run r2 st k)
  | Opt r1 => orelse (run r1 st k) (k st)
  | Rep lo r1 => rep_loop (run r1) lo k (length (after st)) 0 st
  | Grp r1 =>
      run r1 st (fun st' =>
        k (MState (before st') (after st') (Some (consumed st st'))))
  | Ref =>
      match grp st with
      | Some g =>
          if is_prefix g (after st)
          then k (MState (rev g ++ before st) (skipn (length g) (after st))
                         (grp st))
          else None
      | None => None
      end
  | NotBehind p =>
      match before st with
      | c :: _ => if p c then None else k st
      | [] => k st
      end
  | NotAhead p =>
      match after st with
      | c :: _ => if p c then None else k st
      | [] => k st
      end
  end.

(** A match of [r] starting exactly at the given position. *)
Definition match_at (r : regex) (bef aft : text) : option mstate :=
  run r (MState bef aft None) Some.

(** Replacement templates: literal characters and [\1]. *)
Inductive ritem : Type :=
| RChr (c : char)
| RGrp.

Definition expand (repl : list ritem) (st : mstate) : text :=
  flat_map (fun i =>
    match i with
    | RChr c => [c]
    | RGrp => match grp st with Some g => g | None => [] end
    end) repl.

(** [re.sub]'s scan: at each position not inside the previous match, try a
    match; on success emit the replacement and resume at the end of the
    match ([skip] counts the characters of the match still to pass), on
    failure copy the character.  An empty match emits the replacement and
    copies the character. *)
Fixpoint sub_from (r : regex) (repl : list ritem) (bef aft : text)
  (skip : nat) {struct aft} : text :=
  match aft with
  | [] =>
      match skip with
      | O =>
          match match_at r bef [] with
          | Some st => expand repl st
          | None => []
          end
      | S _ => []
      end
  | c :: aft' =>
      match skip with
      | S n => sub_from r repl (c :: bef) aft' n
      | O =>
          match match_at r bef aft with
          | Some st =>
              expand repl st ++
              match length aft - length (after st) with
              | O => c :: sub_from r repl (c :: bef) aft' 0
              | S n => sub_from r repl (c :: bef) aft' n
              end
          | None => c :: sub_from r repl (c :: bef) aft' 0
          end
      end
  end.

(** [re.sub(pattern, repl, s)]. *)
Definition sub (r : regex) (repl : list ritem) (s : text) : text :=
  sub_from r repl [] s 0.

(** Pattern-building shorthands. *)
Definition lit (c : char) : regex := Cls (N.eqb c).

Definition lit_nocase (lower upper : char) : regex :=
  Cls (fun c => (N.eqb c lower || N.eqb c upper)%bool).

Fixpoint word (w : text) (tail : regex) : regex :=
  match w with
  | [] => tail
  | c :: w' => Cat (lit c) (word w' tail)
  end.

Definition star (r : regex) : regex := Rep 0 r.
Definition plus (r : regex) : regex := Rep 1 r.

End Re.

(* ================================================================== *)
(** * STEP 1: [clean_text] *)

(** [str.strip()] with no argument. *)
Fixpoint lstrip (s : text) : text :=
  match s with
  | c :: s' => if isspace c then lstrip s' else s
  | [] => []
  end.

Definition rstrip (s : text) : text := rev (lstrip (rev s)).

Definition strip (s : text) : text := rstrip (lstrip s).

(** [s.replace(old, new)] for one-character [old] and [new], the only form
    [clean_text] uses. *)
Definition replace (old new : char) (s : text) : text :=
  map (fun c => if N.eqb c old then new else c) s.

(** [text.encode("utf-8", "ignore").decode()]: the characters UTF-8 cannot
    encode are dropped, the others come back unchanged. *)
Definition encode_ignore_decode (s : text) : text :=
  filter (fun c => negb (is_surrogate c)) s.

(** The characters kept by step 9: [a-zA-Z0-9.,;:?!()\-\n /%]. *)
Definition allowed (c : char) : bool :=
  (ascii_lower c || ascii_upper c || ascii_digit c
   || one_of (of_string ".,;:?!()-" ++ [LF] ++ of_string " /%") c)%bool.

(** The punctuation of step 10: [!?.,]. *)
Definition repeatable (c : char) : bool := one_of (of_string "!?.,") c.

Section Cleaning.

(** The class [\d] of a [str] pattern is the Unicode category Nd.  Below 128
    it is [0-9]; the rest of the table belongs to the interpreter's Unicode
    database and is a parameter here. *)
Variable nd_table : char -> bool.

Definition isdecimal (c : char) : bool :=
  if (c <? 128)%N then ascii_digit c else nd_table c.

Import Re.

Definition ws : regex := Cls isspace.
Definition nonspace : regex := Cls (fun c => negb (isspace c)).
Definition digit : regex := Cls isdecimal.

(** [<[^>]+>] *)
Definition re_tag : regex :=
  Cat (lit 60) (Cat (plus (Cls (fun c => negb (N.eqb c 62)))) (lit 62)).

(** [http\S+|www\S+|@\S+] *)
Definition re_url : regex :=
  Alt (word (of_string "http") (plus nonspace))
   (Alt (word (of_string "www") (plus nonspace))
        (Cat (lit 64) (plus nonspace))).

(** The bracket class of the five bullets: U+2022 (written twice, once as
    an escape), U+25E6, U+25AA, U+2023. *)
Definition re_bullet : regex :=
  Cls (one_of [8226; 8226; 9702; 9642; 8227])%N.

(** [(\n\s*\d+[\).])] *)
Definition re_numbered : regex :=
  Grp (Cat (lit LF)
        (Cat (star ws) (Cat (plus digit) (Cls (one_of [41; 46]%N))))).

(** [Page\s*\d+(\s*of\s*\d+)?] under [re.IGNORECASE]: each letter matches
    in both cases (no code point outside ASCII lower-cases to one of these
    six letters). *)
Definition re_page : regex :=
  Cat (lit_nocase 112 80) (Cat (lit_nocase 97 65)
   (Cat (lit_nocase 103 71) (Cat (lit_nocase 101 69)
    (Cat (star ws) (Cat (plus digit)
      (Opt (Grp (Cat (star ws) (Cat (lit_nocase 111 79)
                 (Cat (lit_nocase 102 70)
                   (Cat (star ws) (plus digit))))))))))))%N.

(** [(?<!\n)\n(?!\n)] *)
Definition re_wrapped : regex :=
  Cat (NotBehind (N.eqb LF)) (Cat (lit LF) (NotAhead (N.eqb LF))).

(** [\s+] *)
Definition re_spaces : regex := plus ws.

(** [[^a-zA-Z0-9.,;:?!()\-\n /%]] *)
Definition re_unwanted : regex := Cls (fun c => negb (allowed c)).

(** [([!?.,])\1+] *)
Definition re_repeated : regex := Cat (Grp (Cls repeatable)) (plus Ref).

(** [\n\s*\n+] *)
Definition re_blank : regex := Cat (lit LF) (Cat (star ws) (plus (lit LF))).

(** The twelve steps of [clean_text], in the order of the source. *)
Definition step1 (s : text) : text := encode_ignore_decode s.
Definition step2 (s : text) : text := sub re_tag [RChr SPACE] s.
Definition step3 (s : text) : text := sub re_url [RChr SPACE] s.
Definition step4 (s : text) : text :=
  replace 8212 HYPHEN (replace 8211 HYPHEN
    (replace 8221 QUOTE (replace 8220 QUOTE
      (replace 8216 APOSTROPHE (replace 8217 APOSTROPHE s))))).
Definition step5 (s : text) : text :=
  sub re_numbered [RChr LF; RChr HYPHEN] (sub re_bullet [RChr HYPHEN] s).
Definition step6 (s : text) : text := sub re_page [RChr SPACE] s.
Definition step7 (s : text) : text := sub re_wrapped [RChr SPACE] s.
Definition step8 (s : text) : text := sub re_spaces [RChr SPACE] s.
Definition step9 (s : text) : text := sub re_unwanted [] s.
Definition step10 (s : text) : text := sub re_repeated [RGrp] s.
Definition step11 (s : text) : text := sub re_blank [RChr LF; RChr LF] s.
Definition step12 (s : text) : text := strip s.

Definition clean_text (s : text) : text :=
  step12 (step11 (step10 (step9 (step8 (step7 (step6 (step5 (step4
    (step3 (step2 (step1 s))))))))))).

End Cleaning.

(* ================================================================== *)
(** * The splitter instantiated by [preprocess_documents] *)

(** [RecursiveCharacterTextSplitter] is imported from the text-splitter
    library; the program only constructs it (lines 93-97) and calls
    [split_documents] (line 98).  The definitions of this module follow the
    library's methods [TextSplitter.__init__], [_split_text_with_regex],
    [_join_docs], [_merge_splits], [_split_text], [split_text],
    [create_documents] and [split_documents], with the defaults the program
    leaves untouched: [keep_separator = True], [is_separator_regex = False],
    [strip_whitespace = True], [length_function = len],
    [add_start_index = False]. *)
Module Splitter.

Record config : Type := Config {
  chunk_size : nat;
  chunk_overlap : nat;
  separators : list text
}.

(** [TextSplitter.__init__] rejects an overlap larger than the chunk size
    with a [ValueError]; [None] is that error.
<<
    if chunk_overlap > chunk_size:
        raise ValueError(...)
>>
*)
Definition new (chunk_size chunk_overlap : nat) (separators : list text)
  : option config :=
  if chunk_size <? chunk_overlap then None
  else Some (Config chunk_size chunk_overlap separators).

(** [re.search(re.escape(sep), t)] finds a match. *)
Fixpoint occurs (sep t : text) : bool :=
  match t with
  | [] => Re.is_prefix sep []
  | _ :: t' => (Re.is_prefix sep t || occurs sep t')%bool
  end.

(** [re.split("(" + re.escape(sep) + ")", t)] for a non-empty [sep]: the
    texts between the successive non-overlapping occurrences of [sep], with
    [sep] itself between them.  [cur] is the piece being read, last
    character first; [skip] counts the characters of the occurrence still
    to pass. *)
Fixpoint re_split_from (sep : text) (t : text) (skip : nat) (cur : text)
  {struct t} : list text :=
  match t with
  | [] => [rev cur]
  | c :: t' =>
      match skip with
      | S n => re_split_from sep t' n cur
      | O =>
          if Re.is_prefix sep t
          then rev cur :: sep :: re_split_from sep t' (length sep - 1) []
          else re_split_from sep t' 0 (c :: cur)
      end
  end.

Definition re_split (sep t : text) : list text := re_split_from sep t 0 [].

(** [[_splits[i] + _splits[i + 1] for i in range(1, len(_splits), 2)]],
    applied to [_splits[1:]]. *)
Fixpoint pair_up (l : list text) : list text :=
  match l with
  | a :: b :: l' => (a ++ b) :: pair_up l'
  | _ => []
  end.

Definition nonempty (s : text) : bool :=
  match s with
  | [] => false
  | _ :: _ => true
  end.

(** [_split_text_with_regex(text, separator, keep_separator=True)]: every
    piece but the first starts with the separator it was cut at; empty
    pieces are dropped.  [re.split] with one group returns an odd number of
    items, so the branch for an even [len(_splits)] is never taken.
<<
    if separator:
        _splits = re.split(f'({separator})', text)
        splits = [_splits[i] + _splits[i + 1]
                  for i in range(1, len(_splits), 2)]
        if len(_splits) % 2 == 0:
            splits += _splits[-1:]
        splits = [_splits[0]] + splits
    else:
        splits = list(text)
    return [s for s in splits if s != '']
>>
*)
Definition split_text_with_regex (t separator : text) : list text :=
  filter nonempty
    match separator with
    | [] => map (fun c => [c]) t
    | _ :: _ =>
        match re_split separator t with
        | first :: rest => first :: pair_up rest
        | [] => []
        end
    end.

Section WithConfig.

Variable cfg : config.

(** [_join_docs]: join, strip, and [None] for an empty result.
<<
    text = separator.join(docs)
    if self._strip_whitespace:
        text = text.strip()
    if text == '':
        return None
    else:
        return text
>>
*)
Definition join_docs (docs : list text) (separator : text) : option text :=
  match strip (concat (map (fun d => d ++ separator) (removelast docs))
               ++ last docs []) with
  | [] => None
  | c :: s => Some (c :: s)
  end.

Definition sep_if (b : bool) (separator_len : nat) : nat :=
  if b then separator_len else 0.

(** The [while] loop of [_merge_splits]: drop pieces from the front of
    [current_doc] while the total exceeds the overlap, or the next piece of
    length [len] still does not fit.  [total] is the length of the join of
    [current_doc], so the loop's condition is false when [current_doc] is
    empty.
<<
    while total > self._chunk_overlap or (
        total + _len + (separator_len if len(current_doc) > 0 else 0)
        > self._chunk_size
        and total > 0
    ):
        total -= self._length_function(current_doc[0]) + (
            separator_len if len(current_doc) > 1 else 0
        )
        current_doc = current_doc[1:]
>>
*)
Fixpoint pop_front (separator_len len : nat) (current_doc : list text)
  (total : nat) {struct current_doc} : list text * nat :=
  match current_doc with
  | [] => ([], total)
  | p :: rest =>
      if ((chunk_overlap cfg <? total)
          || ((chunk_size cfg <? total + len + sep_if true separator_len)
              && (0 <? total)))%bool
      then pop_front separator_len len rest
             (total
              - (length p + sep_if (1 <? length current_doc) separator_len))
      else (current_doc, total)
  end.

(** The [for] loop of [_merge_splits].  The result lists, in order, the
    values of [current_doc] that the method hands to [_join_docs]: one each
    time the next piece does not fit, and the last one after the loop.
<<
    for d in splits:
        _len = self._length_function(d)
        if (total + _len + (separator_len if len(current_doc) > 0 else 0)
                > self._chunk_size):
            if len(current_doc) > 0:
                doc = self._join_docs(current_doc, separator)
                if doc is not None:
                    docs.append(doc)
                while ...
        current_doc.append(d)
        total += _len + (separator_len if len(current_doc) > 1 else 0)
    doc = self._join_docs(current_doc, separator)
    if doc is not None:
        docs.append(doc)
    return docs
>>
*)
Fixpoint merge_windows (separator_len : nat) (splits : list text)
  (current_doc : list text) (total : nat) {struct splits} : list (list text) :=
  match splits with
  | [] => [current_doc]
  | d :: rest =>
      let len := length d in
      if chunk_size cfg
           <? total + len + sep_if (0 <? length current_doc) separator_len
      then
        match current_doc with
        | [] => merge_windows separator_len rest [d] (total + len)
        | _ :: _ =>
            let (kept, total') :=
              pop_front separator_len len current_doc total in
            current_doc ::
            merge_windows separator_len rest (kept ++ [d])
              (total' + len + sep_if (0 <? length kept) separator_len)
        end
      else
        merge_windows separator_len rest (current_doc ++ [d])
          (total + len + sep_if (0 <? length current_doc) separator_len)
  end.

(** [_merge_splits(splits, separator)]. *)
Definition merge_splits (splits : list text) (separator : text) : list text :=
  flat_map (fun w =>
              match join_docs w separator with
              | Some doc => [doc]
              | None => []
              end)
    (merge_windows (length separator) splits [] 0).

Definition flush (good_splits : list text) : list text :=
  match good_splits with
  | [] => []
  | _ :: _ => merge_splits good_splits []
  end.

(** The loop over [splits] in [_split_text]; [deeper] is the recursive call
    on the remaining separators, [None] when there is none left.  The
    separator passed to [_merge_splits] is the empty string, because
    [keep_separator] is set.
<<
    _good_splits = []
    _separator = '' if self._keep_separator else separator
    for s in splits:
        if self._length_function(s) < self._chunk_size:
            _good_splits.append(s)
        else:
            if _good_splits:
                merged_text = self._merge_splits(_good_splits, _separator)
                final_chunks.extend(merged_text)
                _good_splits = []
            if not new_separators:
                final_chunks.append(s)
            else:
                other_info = self._split_text(s, new_separators)
                final_chunks.extend(other_info)
    if _good_splits:
        merged_text = self._merge_splits(_good_splits, _separator)
        final_chunks.extend(merged_text)
    return final_chunks
>>
*)
Fixpoint split_loop (deeper : option (text -> list text)) (splits : list text)
  (good_splits : list text) {struct splits} : list text :=
  match splits with
  | [] => flush good_splits
  | s :: rest =>
      if length s <? chunk_size cfg
      then split_loop deeper rest (good_splits ++ [s])
      else
        flush good_splits ++
        match deeper with
        | None => [s]
        | Some f => f s
        end ++
        split_loop deeper rest []
  end.

(** [_split_text(text, separators)].  The method's search for the first
    separator that occurs in the text and its recursive call on the
    separators after that one both walk the same list, so they are one
    structural recursion here; [fallback] is [separators[-1]], the separator
    used (with nothing left to recurse on) when none occurs.
<<
    separator = separators[-1]
    new_separators = []
    for i, _s in enumerate(separators):
        _separator = _s if self._is_separator_regex else re.escape(_s)
        if _s == '':
            separator = _s
            break
        if re.search(_separator, text):
            separator = _s
            new_separators = separators[i + 1:]
            break
    _separator = separator if self._is_separator_regex
                 else re.escape(separator)
    splits = _split_text_with_regex(text, _separator, self._keep_separator)
>>
*)
Fixpoint split_text_at (fallback : text) (seps : list text) (t : text)
  {struct seps} : list text :=
  match seps with
  | [] => split_loop None (split_text_with_regex t fallback) []
  | s :: rest =>
      match s with
      | [] => split_loop None (split_text_with_regex t []) []
      | _ :: _ =>
          if occurs s t
          then split_loop
                 match rest with
                 | [] => None
                 | _ :: _ => Some (split_text_at fallback rest)
                 end
                 (split_text_with_regex t s) []
          else split_text_at fallback rest t
      end
  end.

(** [split_text(text)]. *)
Definition split_text (t : text) : list text :=
  split_text_at (last (separators cfg) []) (separators cfg) t.

End WithConfig.

End Splitter.

(* ================================================================== *)
(** * Documents *)

Section Documents.

(** The metadata of a document is opaque to the program. *)
Variable metadata : Type.

Record document : Type := Document {
  page_content : text;
  doc_metadata : metadata
}.

(** [split_documents(docs)]: the chunks of each document in order, each
    with a copy of its document's metadata. *)
Definition split_documents (cfg : Splitter.config) (docs : list document)
  : list document :=
  flat_map (fun d =>
              map (fun chunk => Document chunk (doc_metadata d))
                  (Splitter.split_text cfg (page_content d)))
    docs.

End Documents.

Arguments Document {metadata} page_content doc_metadata.
Arguments page_content {metadata} d.
Arguments doc_metadata {metadata} d.
Arguments split_documents {metadata} cfg docs.

(* ================================================================== *)
(** * Effects: what a run does to its environment *)

(** The four loaders of [load_file]. *)
Inductive loader : Type :=
| PyPDFLoader
| Docx2txtLoader
| UnstructuredHTMLLoader
| TextLoader.

(** The messages the program prints. *)
Inductive message : Type :=
| MsgFileNotFound
| MsgLoading (ext file_path : text)
| MsgCleaning
| MsgTotalChunks (n : nat)
| MsgSaved (output_path : text).

(** The observable actions of a run, in the order they happen. *)
Inductive event : Type :=
| EvInput
| EvExists (file_path : text)
| EvPrint (m : message)
| EvNewLoader (l : loader) (file_path : text)
| EvLoad (l : loader) (file_path : text)
| EvNewSplitter (chunk_size chunk_overlap : nat)
| EvMakedirs (dir : text)
| EvNow
| EvOpen (output_path : text)
| EvWrite (output_path content : text).

(** The exceptions a run can end with. *)
Inductive exn : Type :=
| UnsupportedFileType (ext : text)
| OverlapLargerThanChunk (chunk_overlap chunk_size : nat)
| LibraryError (what : text).

Inductive result (A : Type) : Type :=
| Ok (a : A)
| Raise (e : exn).

Arguments Ok {A} a.
Arguments Raise {A} e.

(** A computation: the events it performed and how it ended. *)
Definition io (A : Type) : Type := (list event * result A)%type.

Definition ret {A : Type} (a : A) : io A := ([], Ok a).

Definition bind {A B : Type} (m : io A) (f : A -> io B) : io B :=
  match m with
  | (tr, Ok a) => let (tr', r) := f a in (tr ++ tr', r)
  | (tr, Raise e) => (tr, Raise e)
  end.

Definition emit (ev : event) : io unit := ([ev], Ok tt).

Definition raise {A : Type} (e : exn) : io A := ([], Raise e).

Declare Scope io_scope.
Delimit Scope io_scope with io.
Notation "x <- m ;; k" := (bind m (fun x => k))
  (at level 61, m at next level, right associativity) : io_scope.
Notation "m ;; k" := (bind m (fun _ => k))
  (at level 61, right associativity) : io_scope.

(* ================================================================== *)
(** * STEPS 2 to 5: [load_file], [preprocess_documents],
      [save_to_markdown], [main] *)

Section Program.

Variable nd_table : char -> bool.
Variable metadata : Type.

(** [PurePath(p).suffix] and [str.lower] are library functions of the
    interpreter; [load_file] only compares their result with six constants. *)
Variable suffix : text -> text.
Variable lower : text -> text.

(** What the environment answers during one run. *)
Record world : Type := World {
  typed_line : text;
  path_exists : text -> bool;
  loader_new : loader -> text -> option text;
  loader_load : loader -> text -> text + list (document metadata);
  makedirs : text -> option text;
  now : text;
  open_write : text -> option text
}.

Variable w : world.

Local Open Scope io_scope.

Definition print (m : message) : io unit := emit (EvPrint m).

Definition text_eqb (a b : text) : bool :=
  (Re.is_prefix a b && Re.is_prefix b a)%bool.

Definition ext_in (ext : text) (l : list string) : bool :=
  existsb (fun s => text_eqb ext (of_string s)) l.

(** The loader [load_file] selects for an extension, [None] in the [else]
    branch. *)
Definition loader_for (ext : text) : option loader :=
  if ext_in ext [".pdf"%string] then Some PyPDFLoader
  else if ext_in ext [".docx"; ".doc"]%string then Some Docx2txtLoader
  else if ext_in ext [".html"; ".htm"]%string then Some UnstructuredHTMLLoader
  else if ext_in ext [".txt"%string] then Some TextLoader
  else None.

Definition construct (l : loader) (file_path : text) : io unit :=
  emit (EvNewLoader l file_path) ;;
  match loader_new w l file_path with
  | None => ret tt
  | Some what => raise (LibraryError what)
  end.

Definition load (l : loader) (file_path : text)
  : io (list (document metadata)) :=
  emit (EvLoad l file_path) ;;
  match loader_load w l file_path with
  | inr docs => ret docs
  | inl what => raise (LibraryError what)
  end.

Definition load_file (file_path : text) : io (list (document metadata)) :=
  let ext := lower (suffix file_path) in
  match loader_for ext with
  | Some l =>
      construct l file_path ;;
      print (MsgLoading ext file_path) ;;
      load l file_path
  | None => raise (UnsupportedFileType ext)
  end.

(** The separators of line 96. *)
Definition program_separators : list text :=
  [[LF; LF]; [LF]; of_string "."; of_string " "].

Definition new_splitter (chunk_size chunk_overlap : nat)
  : io Splitter.config :=
  emit (EvNewSplitter chunk_size chunk_overlap) ;;
  match Splitter.new chunk_size chunk_overlap program_separators with
  | Some cfg => ret cfg
  | None => raise (OverlapLargerThanChunk chunk_overlap chunk_size)
  end.

(** [preprocess_documents] with the two numbers of lines 94 and 95 as
    arguments.  The documents are cleaned in place before the splitter is
    constructed. *)
Definition preprocess_documents_with (chunk_size chunk_overlap : nat)
  (docs : list (document metadata)) : io (list (document metadata)) :=
  print MsgCleaning ;;
  let docs' :=
    map (fun d => Document (clean_text nd_table (page_content d))
                           (doc_metadata d)) docs in
  splitter <- new_splitter chunk_size chunk_overlap ;;
  let chunks := split_documents splitter docs' in
  print (MsgTotalChunks (length chunks)) ;;
  ret chunks.

Definition preprocess_documents (docs : list (document metadata))
  : io (list (document metadata)) :=
  preprocess_documents_with 1000 150 docs.

Definition decimal (n : nat) : text :=
  of_string (NilEmpty.string_of_uint (Nat.to_uint n)).

(** The text written for the chunks numbered from [i]. *)
Fixpoint report (i : nat) (chunks : list (document metadata)) : text :=
  match chunks with
  | [] => []
  | chunk :: rest =>
      of_string "### Chunk " ++ decimal i ++ [LF; LF] ++
      strip (page_content chunk) ++ [LF; LF] ++ of_string "---" ++ [LF; LF] ++
      report (S i) rest
  end.

Definition save_to_markdown (chunks : list (document metadata))
  (output_dir : text) : io unit :=
  emit (EvMakedirs output_dir) ;;
  match makedirs w output_dir with
  | Some what => raise (LibraryError what)
  | None =>
      emit EvNow ;;
      let output_path :=
        output_dir ++ of_string "/processed_" ++ now w ++ of_string ".md" in
      emit (EvOpen output_path) ;;
      match open_write w output_path with
      | Some what => raise (LibraryError what)
      | None =>
          emit (EvWrite output_path (report 1 chunks)) ;;
          print (MsgSaved output_path)
      end
  end.

(** [main], with the configuration of [preprocess_documents] as arguments. *)
Definition main_with (chunk_size chunk_overlap : nat) : io unit :=
  emit EvInput ;;
  let file_path := strip (typed_line w) in
  emit (EvExists file_path) ;;
  if negb (path_exists w file_path)
  then print MsgFileNotFound
  else
    docs <- load_file file_path ;;
    chunks <- preprocess_documents_with chunk_size chunk_overlap docs ;;
    save_to_markdown chunks (of_string "outputs").

Definition main : io unit := main_with 1000 150.

End Program.

Arguments World {metadata}.
Arguments typed_line {metadata} w.
Arguments path_exists {metadata} w.
Arguments loader_new {metadata} w.
Arguments loader_load {metadata} w.
Arguments makedirs {metadata} w.
Arguments now {metadata} w.
Arguments open_write {metadata} w.
Arguments construct {metadata} w l file_path.
Arguments load {metadata} w l file_path.
Arguments load_file {metadata} suffix lower w file_path.
Arguments preprocess_documents_with nd_table {metadata}
  chunk_size chunk_overlap docs.
Arguments preprocess_documents nd_table {metadata} docs.
Arguments report {metadata} i chunks.
Arguments save_to_markdown {metadata} w chunks output_dir.
Arguments main_with nd_table {metadata} suffix lower w
  chunk_size chunk_overlap.
Arguments main nd_table {metadata} suffix lower w.

(* ================================================================== *)
(** * A concrete interpreter and environment, for running the model *)

(** No decimal digit outside ASCII: enough for ASCII subjects. *)
Definition no_nd : char -> bool := fun _ => false.

(** [str.lower] on ASCII text. *)
Definition ascii_lower_text (s : text) : text :=
  map (fun c => if ascii_upper c then (c + 32)%N else c) s.

Fixpoint split_char (sep : char) (t cur : text) : list text :=
  match t with
  | [] => [rev cur]
  | c :: t' =>
      if N.eqb c sep then rev cur :: split_char sep t' []
      else split_char sep t' (c :: cur)
  end.

Fixpoint rfind (c : char) (s : text) (i : nat) : option nat :=
  match s with
  | [] => None
  | d :: s' =>
      match rfind c s' (S i) with
      | Some j => Some j
      | None => if N.eqb d c then Some i else None
      end
  end.

(** [PurePosixPath(p).suffix]: the final component from its last dot on,
    when that dot is neither its first nor its last character. *)
Definition posix_suffix (p : text) : text :=
  let parts :=
    filter (fun part =>
              negb (text_eqb part [] || text_eqb part (of_string ".")))
           (split_char 47 p []) in
  let name := last parts [] in
  match rfind 46 name 0 with
  | Some i => if ((0 <? i) && (i <? length name - 1))%bool
              then skipn i name else []
  | None => []
  end.

(** An environment where every path exists, every loader returns the one
    document it is given, and the report can be written. *)
Definition world_typing (line content : text) : world nat :=
  World line (fun _ => true) (fun _ _ => None)
        (fun _ _ => inr [Document content 0])
        (fun _ => None) (of_string "20240101_000000") (fun _ => None).

(* ================================================================== *)
(** * Sample inputs *)

(** The input of scenario A. *)
Definition scenario_a : text :=
  of_string "Page 3 of 20" ++ [LF; LF] ++
  of_string "Hello   world!!!  Visit http://x.com now.".

(** The input of scenario B and its configuration. *)
Definition scenario_b : text := of_string "abcdefghijklmno".

Definition scenario_b_config : Splitter.config :=
  Splitter.Config 10 3 program_separators.

(** The splitter as [preprocess_documents] configures it. *)
Definition program_config : Splitter.config :=
  Splitter.Config 1000 150 program_separators.

(** An input that cleaning turns into two words with two spaces between
    them: a quotation mark between two spaces. *)
Definition quoted_gap : text := of_string "a " ++ [QUOTE] ++ of_string " b".

(** Four words of 300 letters, separated by single spaces. *)
Definition four_words : text :=
  repeat 97%N 300 ++ [SPACE] ++ repeat 98%N 300 ++ [SPACE] ++
  repeat 99%N 300 ++ [SPACE] ++ repeat 100%N 300.

(** The first three words of [four_words]. *)
Definition three_words : text :=
  repeat 97%N 300 ++ [SPACE] ++ repeat 98%N 300 ++ [SPACE] ++ repeat 99%N 300.

(** A short word, a space, and a word of 1001 letters. *)
Definition long_word : text := of_string "aaa " ++ repeat 98%N 1001.

(* ================================================================== *)
(** * Notions used in the statements *)

Fixpoint takewhile (p : char -> bool) (s : text) : text :=
  match s with
  | c :: s' => if p c then c :: takewhile p s' else []
  | [] => []
  end.

Fixpoint dropwhile (p : char -> bool) (s : text) : text :=
  match s with
  | c :: s' => if p c then dropwhile p s' else s
  | [] => []
  end.

(** [re.search(r, s)] finds a match. *)
Fixpoint search_from (r : Re.regex) (bef aft : text) : bool :=
  match Re.match_at r bef aft with
  | Some _ => true
  | None =>
      match aft with
      | [] => false
      | c :: aft' => search_from r (c :: bef) aft'
      end
  end.

Definition search (r : Re.regex) (s : text) : bool := search_from r [] s.

(** A pattern that cannot match where the next character fails [first]. *)
Definition needs_first (r : Re.regex) (first : char -> bool) : Prop :=
  forall st k,
    match Re.after st with
    | c :: _ => first c = false
    | [] => True
    end ->
    Re.run r st k = None.

(** Two neighbouring characters of [s] are both [c]. *)
Definition doubled (c : char) (s : text) : Prop :=
  exists l1 l2, s = l1 ++ c :: c :: l2.

(** [s] has two neighbouring spaces. *)
Fixpoint double_space (s : text) : bool :=
  match s with
  | c :: s' =>
      match s' with
      | d :: _ => (N.eqb c SPACE && N.eqb d SPACE) || double_space s'
      | [] => false
      end
  | [] => false
  end.

(** A character that can occur in cleaned text: kept by step 9 and not a
    line feed. *)
Definition clean_char (c : char) : Prop := allowed c = true /\ c <> LF.

(** No punctuation mark of step 10 is next to a copy of itself. *)
Fixpoint no_repeat (s : text) : Prop :=
  match s with
  | c :: s' =>
      match s' with
      | d :: _ => c = d -> repeatable c = false
      | [] => True
      end /\ no_repeat s'
  | [] => True
  end.

(** Step 8 leaves [c] only if it is a space or no white space at all. *)
Definition only_space (c : char) : Prop := isspace c = true -> c = SPACE.

(** The text [clean_text] has after step 10, before the blank-line step. *)
Definition before_step11 (nd_table : char -> bool) (s : text) : text :=
  step10 (step9 (step8 (step7 (step6 nd_table (step5 nd_table (step4
    (step3 (step2 (step1 s))))))))).

(** The extensions [load_file] accepts. *)
Definition supported_extensions : list text :=
  map of_string [".pdf"; ".docx"; ".doc"; ".html"; ".htm"; ".txt"]%string.

(** [s] is a run of consecutive characters of [t]. *)
Definition segment (s t : text) : Prop :=
  exists pre post, t = pre ++ s ++ post.

(** The last [n] characters of [s]. *)
Definition trailing (n : nat) (s : text) : text := skipn (length s - n) s.

(** The joint length of a list of pieces. *)
Definition total_len (pieces : list text) : nat :=
  length (concat pieces).

(** The chunk a window of pieces gives: the pieces joined and stripped,
    nothing when that is empty. *)
Definition joined (w : list text) : list text :=
  match strip (concat w) with
  | [] => []
  | c :: s => [c :: s]
  end.

(** What the [while] loop of [_merge_splits] carries over from the closed
    window [W] when the next piece is [d]: the tail [skipn k W], which has
    at most [chunk_overlap] characters and fits [chunk_size] together with
    [d] (or is empty), and is the longest such tail: the loop went on at
    every longer one. *)
Definition carried_over (cfg : Splitter.config) (W : list text) (d : text)
  (k : nat) : Prop :=
  total_len (skipn k W) <= Splitter.chunk_overlap cfg /\
  (total_len (skipn k W) + length d <= Splitter.chunk_size cfg \/
   total_len (skipn k W) = 0) /\
  forall j, j < k ->
    Splitter.chunk_overlap cfg < total_len (skipn j W) \/
    (Splitter.chunk_size cfg < total_len (skipn j W) + length d /\
     0 < total_len (skipn j W)).

(** How the windows [ws] of a merge run lie on its pieces [splits], the
    first window starting after the pieces [pre].  The last window ends
    with the last piece.  A window [W] before another one, [W'], is followed
    in [splits] by a piece [d] that no longer fits: [W] and [d] together
    exceed [chunk_size].  [W'] starts inside [W], with the pieces carried
    over, goes on with [d], and lies on [splits] in its turn. *)
Fixpoint tiled (cfg : Splitter.config) (splits pre : list text)
  (ws : list (list text)) {struct ws} : Prop :=
  match ws with
  | [] => False
  | W :: ws' =>
      match ws' with
      | [] => splits = pre ++ W
      | W' :: _ =>
          exists k d post new,
            splits = pre ++ W ++ d :: post /\
            Splitter.chunk_size cfg < total_len W + length d /\
            carried_over cfg W d k /\
            W' = skipn k W ++ d :: new /\
            tiled cfg splits (pre ++ firstn k W) ws'
      end
  end.

(** Chunk sequences made of merge runs over pieces shorter than the chunk
    size and of single pieces that are not shorter than it. *)
Inductive run_sequence (cfg : Splitter.config) : list text -> Prop :=
| seq_end : run_sequence cfg []
| seq_run (splits : list text) (chunks : list text) :
    Forall (fun d => length d < Splitter.chunk_size cfg) splits ->
    run_sequence cfg chunks ->
    run_sequence cfg (Splitter.merge_splits cfg splits [] ++ chunks)
| seq_whole (p : text) (chunks : list text) :
    Splitter.chunk_size cfg <= length p ->
    run_sequence cfg chunks ->
    run_sequence cfg (p :: chunks).

(** The separator [_split_text] cuts [t] at: the first of [seps] that is
    empty or occurs in [t], and [fallback] when there is none. *)
Fixpoint separator_for (fallback : text) (seps : list text) (t : text)
  {struct seps} : text :=
  match seps with
  | [] => fallback
  | s :: rest =>
      match s with
      | [] => []
      | _ :: _ =>
          if Splitter.occurs s t then s else separator_for fallback rest t
      end
  end.

(** The pieces [split_text] first cuts [t] into. *)
Definition first_pieces (cfg : Splitter.config) (t : text) : list text :=
  Splitter.split_text_with_regex t
    (separator_for (last (Splitter.separators cfg) [])
                   (Splitter.separators cfg) t).

(** A separator whose first character is, by itself, one of the
    separators [seps]; the empty separator is none. *)
Definition cutting (seps : list text) (s : text) : Prop :=
  s <> [] /\ In (firstn 1 s) seps.

(** After its first character, [chunk] holds no character that is by
    itself one of the separators [seps]. *)
Definition uncut (seps : list text) (chunk : text) : Prop :=
  forall d, In d (tl chunk) -> ~ In [d] seps.

(** [p] lies in [t] between separators: it starts at the start of [t] or
    with a character that is one of the separators [seps], and ends at the
    end of [t] or before such a character. *)
Definition delimited (seps : list text) (t p : text) : Prop :=
  exists pre post,
    t = pre ++ p ++ post /\
    (pre = [] \/ In (firstn 1 p) seps) /\
    (post = [] \/ In (firstn 1 post) seps).

(** A chunk within the size, or a piece of the text between separators
    that nothing cut: [all_separators] are the separators the splitter was
    given. *)
Definition within_or_uncut (cfg : Splitter.config) (all_separators : list text)
  (t chunk : text) : Prop :=
  length chunk <= Splitter.chunk_size cfg \/
  (chunk <> [] /\ delimited all_separators t chunk /\
   uncut all_separators chunk).

(** [p] is a whole piece of [t]: not empty, lying in [t] between
    separators, and with no separator occurring in it after its first
    character. *)
Definition whole_piece (seps : list text) (t p : text) : Prop :=
  p <> [] /\
  delimited seps t p /\
  forall sep, In sep seps -> Splitter.occurs sep (tl p) = false.

(* ================================================================== *)
(** * The steps at work *)

(** A tag needs one character between its brackets, and may hold [<]. *)
Example step2_tags :
  step2 (of_string "a <b> c <<d> e <> f") = of_string "a   c   e <> f".
Proof. vm_compute. reflexivity. Qed.

(** [www] alone is no URL; [@] starts a token wherever it stands. *)
Example step3_urls :
  step3 (of_string "see http://x.y/z or www.a.b, mail a@b.c www end")
  = of_string "see   or   mail a  www end".
Proof. vm_compute. reflexivity. Qed.

Example step4_quotes_dashes :
  step4 [8220; 97; 8221; 8211; 8212; 8216; 8217]%N
  = [QUOTE; 97%N; QUOTE; HYPHEN; HYPHEN; APOSTROPHE; APOSTROPHE].
Proof. vm_compute. reflexivity. Qed.

(** A number is a list marker only at the start of a line. *)
Example step5_markers :
  step5 no_nd (of_string "x" ++ [LF] ++ of_string "  12) a" ++ [LF] ++
               of_string "3. b" ++ [LF; 8226%N] ++ of_string " c 4. d")
  = of_string "x" ++ [LF] ++ of_string "- a" ++ [LF] ++ of_string "- b" ++
    [LF] ++ of_string "- c 4. d".
Proof. vm_compute. reflexivity. Qed.

(** The [of N] part is optional: the matcher backtracks out of it. *)
Example step6_page_markers :
  step6 no_nd (of_string "Page 3 of 20|PAGE7|page 1 of x|Page x|pageof")
  = of_string " | |  of x|Page x|pageof".
Proof. vm_compute. reflexivity. Qed.

Example step7_wrapped_lines :
  step7 (of_string "a" ++ [LF] ++ of_string "b" ++ [LF; LF] ++
         of_string "c" ++ [LF])
  = of_string "a b" ++ [LF; LF] ++ of_string "c ".
Proof. vm_compute. reflexivity. Qed.

Example step8_white_space :
  step8 (of_string "a  b" ++ [9; LF; 160; 32]%N ++ of_string "c ")
  = of_string "a b c ".
Proof. vm_compute. reflexivity. Qed.

Example step9_unwanted :
  step9 (of_string "a_b*c's [x] {y} 50% (ok)/no~")
  = of_string "abcs x y 50% (ok)/no".
Proof. vm_compute. reflexivity. Qed.

Example step10_repeated :
  step10 (of_string "a!!! b?? c.. d,, e!? f!.! g...,,,")
  = of_string "a! b? c. d, e!? f!.! g.,".
Proof. vm_compute. reflexivity. Qed.

Example step11_blank_lines :
  step11 (of_string "a" ++ [LF; 32%N; LF; LF] ++ of_string "b" ++ [LF] ++
          of_string "c")
  = of_string "a" ++ [LF; LF] ++ of_string "b" ++ [LF] ++ of_string "c".
Proof. vm_compute. reflexivity. Qed.

Example step12_strip :
  strip ([32; 9; 10]%N ++ of_string "a b " ++ [160; 32]%N) = of_string "a b".
Proof. vm_compute. reflexivity. Qed.

(** Scenario A after the URL step, the page-marker step, the white-space
    step and the punctuation step. *)
Example scenario_a_steps :
  step3 (step2 (step1 scenario_a))
  = of_string "Page 3 of 20" ++ [LF; LF] ++
    of_string "Hello   world!!!  Visit   now." /\
  step6 no_nd (step3 (step2 (step1 scenario_a)))
  = [SPACE; LF; LF] ++ of_string "Hello   world!!!  Visit   now." /\
  step8 (step6 no_nd (step3 (step2 (step1 scenario_a))))
  = of_string " Hello world!!! Visit now." /\
  step10 (step8 (step6 no_nd (step3 (step2 (step1 scenario_a)))))
  = of_string " Hello world! Visit now.".
Proof. repeat split; vm_compute; reflexivity. Qed.

(** The splitter on short texts, with chunks of 10 characters and an
    overlap of 3. *)
Example split_words :
  map (Splitter.split_text scenario_b_config)
      [of_string "aaaa bbbb cccc";
       of_string "a b c d e f g h i j k l m n o";
       of_string "aaa bbbbbbbbbbbb";
       of_string "x. AAAAAAAAAAAAAAAA B.C.D.E.F.G.H"]
  = [[of_string "aaaa bbbb"; of_string "cccc"];
     [of_string "a b c d e"; of_string "e f g h i"; of_string "i j k l m";
      of_string "m n o"];
     [of_string "aaa"; of_string " bbbbbbbbbbbb"];
     [of_string "x"; of_string "."; of_string " AAAAAAAAAAAAAAAA";
      of_string "B"; of_string ".C.D.E.F.G"; of_string ".G.H"]].
Proof. vm_compute. reflexivity. Qed.

Example suffixes :
  map posix_suffix
      (map of_string ["a/b.txt"; "a.b/c"; ".bashrc"; "x.tar.gz";
                      "dir/x.PDF/"; "a."]%string)
  = map of_string [".txt"; ""; ""; ".gz"; ".PDF"; ""]%string.
Proof. vm_compute. reflexivity. Qed.

(* ================================================================== *)
(** * The matcher on the patterns of [clean_text] *)

Section Matcher.

Import Re.

Lemma ltb_length_cons (c : char) (rest : text) :
  (length rest <? length (c :: rest)) = true.
Proof. apply Nat.ltb_lt. simpl. lia. Qed.

(** A greedy repetition at the end of a pattern, of a body that passes
    one character satisfying [p], takes the longest run. *)
Lemma rep_greedy (body : mstate -> (mstate -> option mstate) -> option mstate)
  (p : char -> bool) (g : option text) (lo : nat) :
  (forall bef aft k,
      body (MState bef aft g) k =
      match aft with
      | c :: rest => if p c then k (MState (c :: bef) rest g) else None
      | [] => None
      end) ->
  forall fuel cnt bef aft,
    length aft <= fuel ->
    rep_loop body lo Some fuel cnt (MState bef aft g) =
    if lo <=? cnt + length (takewhile p aft)
    then Some (MState (rev (takewhile p aft) ++ bef) (dropwhile p aft) g)
    else None.
Proof.
  intros Hbody.
  induction fuel as [|fuel IH]; intros cnt bef aft Hlen.
  - destruct aft; [|simpl in Hlen; lia].
    simpl. rewrite Nat.add_0_r. reflexivity.
  - destruct aft as [|c rest].
    + simpl. rewrite Hbody, Nat.add_0_r. destruct (lo <=? cnt); reflexivity.
    + cbn [rep_loop takewhile dropwhile]. rewrite Hbody.
      destruct (p c) eqn:Hp.
      * cbn [after].
        rewrite ltb_length_cons, IH by (simpl in Hlen; lia).
        cbn [length rev]. rewrite Nat.add_succ_r. cbn [Nat.add].
        destruct (lo <=? S (cnt + length (takewhile p rest))) eqn:Hlo.
        -- cbn [orelse]. rewrite <- app_assoc. reflexivity.
        -- cbn [orelse].
           apply Nat.leb_gt in Hlo.
           destruct (lo <=? cnt) eqn:Hc; [apply Nat.leb_le in Hc; lia|].
           reflexivity.
      * cbn [orelse length]. rewrite Nat.add_0_r. reflexivity.
Qed.

Lemma run_Rep (lo : nat) (r : regex) (st : mstate) k :
  run (Rep lo r) st k = rep_loop (run r) lo k (length (after st)) 0 st.
Proof. reflexivity. Qed.

Lemma match_plus_cls (p : char -> bool) (bef aft : text) :
  match_at (plus (Cls p)) bef aft =
  match aft with
  | c :: rest =>
      if p c
      then Some (MState (rev (takewhile p rest) ++ c :: bef)
                        (dropwhile p rest) None)
      else None
  | [] => None
  end.
Proof.
  unfold match_at, plus. rewrite run_Rep. cbn [after].
  rewrite (rep_greedy (run (Cls p)) p None) by (reflexivity || auto).
  destruct aft as [|c rest]; [reflexivity|].
  cbn [takewhile dropwhile]. destruct (p c); [|reflexivity].
  cbn [length rev Nat.add Nat.leb]. rewrite <- app_assoc. reflexivity.
Qed.

(** The back-reference to a one-character group passes that character. *)
Lemma run_ref_char (c : char) (bef aft : text) k :
  run Ref (MState bef aft (Some [c])) k =
  match aft with
  | d :: rest =>
      if N.eqb c d then k (MState (d :: bef) rest (Some [c])) else None
  | [] => None
  end.
Proof.
  destruct aft as [|d rest]; [reflexivity|].
  cbn. destruct (N.eqb c d) eqn:E; [|reflexivity].
  apply N.eqb_eq in E. subst d. reflexivity.
Qed.

Lemma firstn_succ_sub (c : char) (rest : text) :
  firstn (length (c :: rest) - length rest) (c :: rest) = [c].
Proof.
  replace (length (c :: rest) - length rest) with 1 by (cbn [length]; lia).
  reflexivity.
Qed.

Lemma match_repeated (bef aft : text) :
  match_at re_repeated bef aft =
  match aft with
  | c :: rest =>
      if (repeatable c && (1 <=? length (takewhile (N.eqb c) rest)))%bool
      then Some (MState (rev (takewhile (N.eqb c) rest) ++ c :: bef)
                        (dropwhile (N.eqb c) rest) (Some [c]))
      else None
  | [] => None
  end.
Proof.
  unfold match_at, re_repeated, plus.
  destruct aft as [|c rest]; [reflexivity|].
  cbn [run after]. destruct (repeatable c); [|reflexivity].
  unfold step, consumed. cbn [after before grp].
  rewrite firstn_succ_sub.
  change (run (Rep 1 Ref)
            {| before := c :: bef; after := rest; grp := Some [c] |} Some)
    with (rep_loop (run Ref) 1 Some (length rest) 0
            {| before := c :: bef; after := rest; grp := Some [c] |}).
  rewrite (rep_greedy (run Ref) (N.eqb c) (Some [c]))
    by (auto || apply run_ref_char).
  reflexivity.
Qed.

Lemma needs_first_cls (p : char -> bool) : needs_first (Cls p) p.
Proof.
  intros st k H. cbn [run]. destruct (after st) as [|c rest]; [reflexivity|].
  rewrite H. reflexivity.
Qed.

Lemma needs_first_cat (r1 r2 : regex) (p : char -> bool) :
  needs_first r1 p -> needs_first (Cat r1 r2) p.
Proof. intros H1 st k H. cbn [run]. apply H1, H. Qed.

Lemma needs_first_grp (r : regex) (p : char -> bool) :
  needs_first r p -> needs_first (Grp r) p.
Proof. intros H1 st k H. cbn [run]. apply H1, H. Qed.

Lemma needs_first_behind (q : char -> bool) (r : regex) (p : char -> bool) :
  needs_first r p -> needs_first (Cat (NotBehind q) r) p.
Proof.
  intros H1 st k H. cbn [run].
  destruct (before st) as [|b bef]; [apply H1, H|].
  destruct (q b); [reflexivity|apply H1, H].
Qed.

Lemma needs_first_tag : needs_first re_tag (N.eqb 60).
Proof. apply needs_first_cat, needs_first_cls. Qed.

Lemma needs_first_bullet :
  needs_first re_bullet (one_of [8226; 8226; 9702; 9642; 8227]%N).
Proof. apply needs_first_cls. Qed.

Lemma needs_first_numbered nd : needs_first (re_numbered nd) (N.eqb LF).
Proof. apply needs_first_grp, needs_first_cat, needs_first_cls. Qed.

Lemma needs_first_wrapped : needs_first re_wrapped (N.eqb LF).
Proof. apply needs_first_behind, needs_first_cat, needs_first_cls. Qed.

Lemma needs_first_blank : needs_first re_blank (N.eqb LF).
Proof. apply needs_first_cat, needs_first_cls. Qed.

Lemma needs_first_unwanted :
  needs_first re_unwanted (fun c => negb (allowed c)).
Proof. apply needs_first_cls. Qed.

End Matcher.

(* ================================================================== *)
(** * [re.sub]: what the scan keeps and what it emits *)

Section Substitution.

Import Re.

Variable r : regex.
Variable repl : list ritem.

(** Where nothing matches, the text comes back unchanged. *)
Lemma sub_from_id :
  forall aft bef,
    (forall l1 l2, aft = l1 ++ l2 -> match_at r (rev l1 ++ bef) l2 = None) ->
    sub_from r repl bef aft 0 = aft.
Proof.
  induction aft as [|c aft IH]; intros bef H.
  - pose proof (H [] [] eq_refl) as H0. simpl in H0.
    simpl. rewrite H0. reflexivity.
  - pose proof (H [] (c :: aft) eq_refl) as H0. simpl in H0.
    cbn [sub_from]. rewrite H0.
    f_equal. apply IH. intros l1 l2 E.
    specialize (H (c :: l1) l2). cbn [rev] in H. rewrite <- app_assoc in H.
    apply H. rewrite E. reflexivity.
Qed.

Lemma sub_no_first (first : char -> bool) (s : text) :
  needs_first r first ->
  (forall c, In c s -> first c = false) ->
  sub r repl s = s.
Proof.
  intros Hr Hs. apply sub_from_id. intros l1 l2 E. apply Hr.
  cbn [after]. destruct l2 as [|c l2]; [exact I|].
  apply Hs. rewrite E. apply in_or_app. right. left. reflexivity.
Qed.

Lemma search_from_false :
  forall aft bef,
    search_from r bef aft = false ->
    forall l1 l2, aft = l1 ++ l2 -> match_at r (rev l1 ++ bef) l2 = None.
Proof.
  induction aft as [|c aft IH]; intros bef H l1 l2 E.
  - destruct l1; [|discriminate]. destruct l2; [|discriminate].
    simpl in *. destruct (match_at r bef []); [discriminate|reflexivity].
  - cbn [search_from] in H.
    destruct (match_at r bef (c :: aft)) eqn:Em; [discriminate|].
    destruct l1 as [|d l1].
    + simpl in E. subst l2. exact Em.
    + injection E as -> E. cbn [rev]. rewrite <- app_assoc.
      apply (IH (d :: bef) H l1 l2 E).
Qed.

(** [re.search] finds nothing: [re.sub] changes nothing. *)
Lemma sub_no_search (s : text) : search r s = false -> sub r repl s = s.
Proof.
  intro H. apply sub_from_id. apply search_from_false. exact H.
Qed.

(** The characters of the result: those of the replacements, and those
    copied where no match starts. *)
Lemma sub_from_Forall (Q P : char -> Prop) :
  (forall bef aft st,
      Forall Q aft -> match_at r bef aft = Some st ->
      Forall P (expand repl st)) ->
  (forall bef c aft, Q c -> match_at r bef (c :: aft) = None -> P c) ->
  (forall bef c aft st,
      Q c -> match_at r bef (c :: aft) = Some st ->
      length (c :: aft) - length (after st) = 0 -> P c) ->
  forall aft bef skip,
    Forall Q aft -> Forall P (sub_from r repl bef aft skip).
Proof.
  intros H1 H2 H3.
  induction aft as [|c aft IH]; intros bef skip HQ.
  - simpl. destruct skip; [|constructor].
    destruct (match_at r bef []) eqn:E; [|constructor].
    exact (H1 bef [] m HQ E).
  - cbn [sub_from]. destruct skip as [|n].
    + pose proof (Forall_inv HQ) as Hc. pose proof (Forall_inv_tail HQ) as Ht.
      destruct (match_at r bef (c :: aft)) eqn:E.
      * apply Forall_app. split; [exact (H1 bef (c :: aft) m HQ E)|].
        destruct (length (c :: aft) - length (after m)) eqn:En.
        -- constructor; [exact (H3 bef c aft m Hc E En)|]. apply IH; assumption.
        -- apply IH; assumption.
      * constructor; [exact (H2 bef c aft Hc E)|]. apply IH; assumption.
    + apply IH. exact (Forall_inv_tail HQ).
Qed.

End Substitution.

(* ================================================================== *)
(** * The steps of [clean_text] *)

Section Steps.

Import Re.

Variable nd : char -> bool.

Lemma length_dropwhile (p : char -> bool) (s : text) :
  length (dropwhile p s) <= length s.
Proof.
  induction s as [|c s IH]; [auto|]. simpl. destruct (p c); simpl; lia.
Qed.

Lemma length_take_drop (p : char -> bool) (s : text) :
  length s = length (takewhile p s) + length (dropwhile p s).
Proof.
  induction s as [|c s IH]; [reflexivity|]. simpl.
  destruct (p c); simpl; lia.
Qed.

Lemma skipn_takewhile (p : char -> bool) (s : text) :
  skipn (length (takewhile p s)) s = dropwhile p s.
Proof.
  induction s as [|c s IH]; [reflexivity|]. simpl.
  destruct (p c); simpl; [exact IH|reflexivity].
Qed.

Lemma dropwhile_head (p : char -> bool) (s : text) (c : char) (s' : text) :
  dropwhile p s = c :: s' -> p c = false.
Proof.
  induction s as [|d s IH]; [discriminate|]. simpl.
  destruct (p d) eqn:E; [exact IH|]. intro H. injection H as -> _. exact E.
Qed.

(** Step 8 leaves no white space but single spaces. *)

Lemma step8_only_space (s : text) : Forall only_space (step8 s).
Proof.
  unfold step8, sub.
  apply sub_from_Forall with (Q := fun _ => True).
  - intros bef aft st _ _. repeat constructor.
  - intros bef c aft _ H Hc. unfold re_spaces, ws in H.
    rewrite match_plus_cls, Hc in H. discriminate.
  - intros bef c aft st _ H Hn. unfold re_spaces, ws in H.
    rewrite match_plus_cls in H. destruct (isspace c); [|discriminate].
    injection H as <-. cbn [after length] in Hn.
    pose proof (length_dropwhile isspace aft). lia.
  - apply Forall_forall. intros; exact I.
Qed.

Lemma only_space_not_lf (c : char) : only_space c -> c <> LF.
Proof. intros H E. subst c. specialize (H eq_refl). discriminate. Qed.

(** Step 9 keeps the allowed characters only. *)
Lemma step9_clean (s : text) :
  Forall (fun c => c <> LF) s -> Forall clean_char (step9 s).
Proof.
  unfold step9, sub. apply sub_from_Forall.
  - intros bef aft st _ _. constructor.
  - intros bef c aft Hc H. split; [|exact Hc].
    unfold match_at, re_unwanted in H. cbn in H.
    destruct (allowed c); [reflexivity|discriminate].
  - intros bef c aft st _ H Hn. exfalso.
    unfold match_at, re_unwanted in H. cbn [run after] in H.
    destruct (negb (allowed c)); [|discriminate].
    injection H as <-. cbn [step after length] in Hn. lia.
Qed.

(** Step 10 emits characters of its input only. *)
Lemma step10_Forall (P : char -> Prop) (s : text) :
  Forall P s -> Forall P (step10 s).
Proof.
  unfold step10, sub. apply sub_from_Forall.
  - intros bef aft st HP H. rewrite match_repeated in H.
    destruct aft as [|c rest]; [discriminate|].
    destruct (repeatable c && _)%bool; [|discriminate].
    injection H as <-. cbn. constructor; [exact (Forall_inv HP)|constructor].
  - intros; assumption.
  - intros; assumption.
Qed.

Lemma sub_from_repeated_head :
  forall aft bef skip,
    hd_error (sub_from re_repeated [RGrp] bef aft skip) =
    hd_error (skipn skip aft).
Proof.
  induction aft as [|c aft IH]; intros bef skip.
  - destruct skip; reflexivity.
  - destruct skip as [|n]; cbn [sub_from skipn].
    + rewrite match_repeated.
      destruct (repeatable c && _)%bool; reflexivity.
    + apply IH.
Qed.

(** After step 10 no mark of [!?.,] is doubled. *)
Lemma sub_from_repeated_no_repeat :
  forall aft bef skip, no_repeat (sub_from re_repeated [RGrp] bef aft skip).
Proof.
  induction aft as [|c aft IH]; intros bef skip.
  - destruct skip; exact I.
  - destruct skip as [|n]; cbn [sub_from]; [|apply IH].
    rewrite match_repeated.
    destruct (repeatable c && _)%bool eqn:E.
    + cbn [expand flat_map grp app after].
      replace (length (c :: aft) - length (dropwhile (N.eqb c) aft))
        with (S (length (takewhile (N.eqb c) aft)))
        by (cbn [length]; pose proof (length_take_drop (N.eqb c) aft); lia).
      cbn [no_repeat]. split; [|apply IH].
      pose proof (sub_from_repeated_head aft (c :: bef)
                    (length (takewhile (N.eqb c) aft))) as Hh.
      rewrite skipn_takewhile in Hh.
      destruct (sub_from re_repeated [RGrp] (c :: bef) aft
                  (length (takewhile (N.eqb c) aft))) as [|d out]; [exact I|].
      intro Hcd. subst d.
      destruct (dropwhile (N.eqb c) aft) as [|e s'] eqn:Ed; [discriminate|].
      injection Hh as Hh. subst e.
      apply dropwhile_head in Ed. rewrite N.eqb_refl in Ed. discriminate.
    + cbn [no_repeat]. split; [|apply IH].
      pose proof (sub_from_repeated_head aft (c :: bef) 0) as Hh.
      cbn [skipn] in Hh.
      destruct (sub_from re_repeated [RGrp] (c :: bef) aft 0) as [|d out];
        [exact I|].
      intro Hcd. subst d.
      destruct aft as [|e aft']; [discriminate|].
      injection Hh as Hh. subst e.
      cbn [takewhile] in E. rewrite N.eqb_refl in E. cbn [length] in E.
      change (1 <=? S (length (takewhile (N.eqb c) aft'))) with true in E.
      rewrite andb_true_r in E. exact E.
Qed.

Lemma step10_no_repeat (s : text) : no_repeat (step10 s).
Proof. apply sub_from_repeated_no_repeat. Qed.

Lemma no_repeat_doubled (s : text) (c : char) :
  no_repeat s -> doubled c s -> repeatable c = false.
Proof.
  intros H (l1 & l2 & E). subst s.
  induction l1 as [|d l1 IH].
  - destruct H as [H _]. apply H. reflexivity.
  - apply IH. destruct H as [_ H]. exact H.
Qed.

(** Text without a line feed passes step 11 unchanged. *)
Lemma step11_no_lf (s : text) : Forall (fun c => c <> LF) s -> step11 s = s.
Proof.
  intro H. unfold step11. apply sub_no_first with (first := N.eqb LF).
  - apply needs_first_blank.
  - intros c Hc. rewrite Forall_forall in H. apply N.eqb_neq.
    intro E. apply (H c Hc). symmetry. exact E.
Qed.

(** [strip] returns a segment of its argument. *)
Lemma lstrip_suffix (s : text) : exists pre, s = pre ++ lstrip s.
Proof.
  induction s as [|c s [pre IH]]; [exists []; reflexivity|].
  simpl. destruct (isspace c).
  - exists (c :: pre). simpl. f_equal. exact IH.
  - exists []. reflexivity.
Qed.

Lemma rstrip_prefix (s : text) : exists post, s = rstrip s ++ post.
Proof.
  unfold rstrip. destruct (lstrip_suffix (rev s)) as [pre E].
  exists (rev pre). rewrite <- rev_app_distr, <- E, rev_involutive.
  reflexivity.
Qed.

Lemma strip_segment (s : text) : exists pre post, s = pre ++ strip s ++ post.
Proof.
  unfold strip. destruct (lstrip_suffix s) as [pre E].
  destruct (rstrip_prefix (lstrip s)) as [post E'].
  exists pre, post. rewrite <- E'. exact E.
Qed.

Lemma strip_Forall (P : char -> Prop) (s : text) :
  Forall P s -> Forall P (strip s).
Proof.
  intro H. destruct (strip_segment s) as (pre & post & E).
  rewrite E in H. apply Forall_app in H. destruct H as [_ H].
  apply Forall_app in H. destruct H as [H _]. exact H.
Qed.

Lemma strip_doubled (c : char) (s : text) :
  doubled c (strip s) -> doubled c s.
Proof.
  intros (l1 & l2 & E). destruct (strip_segment s) as (pre & post & Es).
  exists (pre ++ l1), (l2 ++ post). rewrite Es at 1. rewrite E.
  rewrite <- !app_assoc. reflexivity.
Qed.

Lemma before_step11_clean (s : text) :
  Forall clean_char (before_step11 nd s).
Proof.
  unfold before_step11. apply step10_Forall, step9_clean.
  eapply Forall_impl; [|apply step8_only_space].
  intros c. apply only_space_not_lf.
Qed.

Lemma clean_no_lf (s : text) :
  Forall clean_char s -> Forall (fun c => c <> LF) s.
Proof. apply Forall_impl. intros c [_ H]. exact H. Qed.

Lemma clean_text_eq (s : text) :
  clean_text nd s = strip (before_step11 nd s).
Proof.
  unfold clean_text, step12.
  change (step10 _) with (before_step11 nd s).
  rewrite step11_no_lf; [reflexivity|].
  apply clean_no_lf, before_step11_clean.
Qed.

Lemma clean_text_clean (s : text) : Forall clean_char (clean_text nd s).
Proof.
  rewrite clean_text_eq. apply strip_Forall, before_step11_clean.
Qed.

(** A character doubled in cleaned text is none of [! ? . ,]. *)
Lemma clean_text_doubled (s : text) (c : char) :
  doubled c (clean_text nd s) -> repeatable c = false.
Proof.
  intro Hd. rewrite clean_text_eq in Hd. apply strip_doubled in Hd.
  exact (no_repeat_doubled _ c (step10_no_repeat _) Hd).
Qed.

Lemma sub_from_spaces_head :
  forall aft bef skip,
    hd_error (sub_from re_spaces [RChr SPACE] bef aft skip) =
    option_map (fun c => if isspace c then SPACE else c)
               (hd_error (skipn skip aft)).
Proof.
  induction aft as [|c aft IH]; intros bef skip.
  - destruct skip; reflexivity.
  - destruct skip as [|n]; cbn [sub_from skipn]; [|apply IH].
    unfold re_spaces, ws. rewrite match_plus_cls.
    destruct (isspace c) eqn:E;
      cbn [expand flat_map app hd_error option_map]; rewrite E; reflexivity.
Qed.

Lemma double_space_cons (c d : char) (s : text) :
  double_space (c :: d :: s) =
  ((N.eqb c SPACE && N.eqb d SPACE) || double_space (d :: s))%bool.
Proof. reflexivity. Qed.

(** Step 8 leaves no two spaces next to each other. *)
Lemma sub_from_spaces_single :
  forall aft bef skip,
    double_space (sub_from re_spaces [RChr SPACE] bef aft skip) = false.
Proof.
  induction aft as [|c aft IH]; intros bef skip.
  - destruct skip; reflexivity.
  - destruct skip as [|n]; cbn [sub_from]; [|apply IH].
    pose proof (sub_from_spaces_head aft (c :: bef)) as Hh.
    unfold re_spaces, ws in *. rewrite match_plus_cls.
    destruct (isspace c) eqn:Ec.
    + cbn [expand flat_map app after].
      replace (length (c :: aft) - length (dropwhile isspace aft))
        with (S (length (takewhile isspace aft)))
        by (cbn [length]; pose proof (length_take_drop isspace aft); lia).
      specialize (Hh (length (takewhile isspace aft))).
      specialize (IH (c :: bef) (length (takewhile isspace aft))).
      rewrite skipn_takewhile in Hh.
      destruct (sub_from (plus (Cls isspace)) [RChr SPACE] (c :: bef) aft
                  (length (takewhile isspace aft))) as [|d out]; [reflexivity|].
      rewrite double_space_cons, IH, orb_false_r.
      destruct (dropwhile isspace aft) as [|e s'] eqn:Ed; [discriminate|].
      apply dropwhile_head in Ed. cbn in Hh. rewrite Ed in Hh.
      injection Hh as ->. rewrite N.eqb_refl. cbn [andb].
      apply N.eqb_neq. intro E. subst e. discriminate.
    + specialize (IH (c :: bef) 0).
      destruct (sub_from (plus (Cls isspace)) [RChr SPACE] (c :: bef) aft 0)
        as [|d out]; [reflexivity|].
      rewrite double_space_cons, IH, orb_false_r.
      replace (N.eqb c SPACE) with false; [reflexivity|].
      symmetry. apply N.eqb_neq. intro E. subst c. discriminate.
Qed.

Lemma occurs_head (c : char) (sep t : text) :
  Splitter.occurs (c :: sep) t = true -> In c t.
Proof.
  induction t as [|d t IH]; [discriminate|].
  cbn [Splitter.occurs is_prefix]. intro H.
  apply orb_true_iff in H. destruct H as [H|H].
  - apply andb_true_iff in H. destruct H as [H _].
    apply N.eqb_eq in H. left. symmetry. exact H.
  - right. apply IH, H.
Qed.

Lemma not_occurs (c : char) (sep t : text) :
  Forall (fun d => d <> c) t -> Splitter.occurs (c :: sep) t = false.
Proof.
  intro H. destruct (Splitter.occurs (c :: sep) t) eqn:E; [|reflexivity].
  apply occurs_head in E. rewrite Forall_forall in H.
  exfalso. exact (H c E eq_refl).
Qed.

End Steps.

(* ================================================================== *)
(** * The normalizer: line feeds, the allow-list, doubled punctuation *)

(** C2.  Cleaned text contains no line feed.  Step 8 turns every run of
    white space, line feeds included, into one space: what it returns has
    no white space but spaces, and no two of them adjacent.  So in
    [clean_text] the blank-line step 11 receives text it leaves unchanged,
    and the splitter's first two separators, the double and the single line
    feed, do not occur in cleaned text. *)
Theorem clean_text_no_newline (nd : char -> bool) (x : text) :
  Forall (fun c => c <> LF) (clean_text nd x) /\
  (forall s, Forall only_space (step8 s) /\ double_space (step8 s) = false) /\
  step11 (before_step11 nd x) = before_step11 nd x /\
  Splitter.occurs [LF; LF] (clean_text nd x) = false /\
  Splitter.occurs [LF] (clean_text nd x) = false.
Proof.
  assert (Hlf : Forall (fun c => c <> LF) (clean_text nd x))
    by apply clean_no_lf, clean_text_clean.
  split; [exact Hlf|]. split.
  - intro s. split; [apply step8_only_space|apply sub_from_spaces_single].
  - split; [apply step11_no_lf, clean_no_lf, before_step11_clean|].
    split; apply not_occurs, Hlf.
Qed.

(** C6.  Every character of cleaned text is on the allow-list of step 9:
    an ASCII letter, an ASCII digit, one of [. , ; : ? ! ( ) - / %], a
    space or a line feed. *)
Theorem clean_text_allowed (nd : char -> bool) (x : text) :
  Forall (fun c => allowed c = true) (clean_text nd x).
Proof.
  eapply Forall_impl; [|apply clean_text_clean].
  intros c [H _]. exact H.
Qed.

(** C7.  In cleaned text no character of [! ? . ,] is followed by a copy
    of itself. *)
Theorem clean_text_no_doubled (nd : char -> bool) (x : text) (c : char) :
  repeatable c = true -> ~ doubled c (clean_text nd x).
Proof.
  intros Hc Hd. apply clean_text_doubled in Hd. congruence.
Qed.

(** C8.  Scenario A: the page marker, the runs of spaces, the repeated
    exclamation mark and the URL are all removed. *)
Theorem scenario_a_cleaned (nd : char -> bool) :
  clean_text nd scenario_a = of_string "Hello world! Visit now.".
Proof. vm_compute. reflexivity. Qed.

(** An instance: three exclamation marks in the input, no two in a row in
    the cleaned text. *)
Lemma clean_text_no_doubled_witness :
  repeatable 33%N = true /\
  ~ doubled 33%N (clean_text no_nd (of_string "Hi!!! there")).
Proof.
  split; [reflexivity|].
  apply (clean_text_no_doubled no_nd (of_string "Hi!!! there") 33%N).
  reflexivity.
Defined.

(* ================================================================== *)
(** * A second pass over cleaned text *)

Section SecondPass.

Import Re.

Variable nd : char -> bool.

Lemma allowed_cases (c : char) :
  allowed c = true ->
  (97 <= c <= 122 \/ 65 <= c <= 90 \/ 48 <= c <= 57 \/
   In c [46; 44; 59; 58; 63; 33; 40; 41; 45; 10; 32; 47; 37])%N.
Proof.
  unfold allowed, ascii_lower, ascii_upper, ascii_digit, between, one_of.
  change (of_string ".,;:?!()-" ++ [LF] ++ of_string " /%")
    with [46; 44; 59; 58; 63; 33; 40; 41; 45; 10; 32; 47; 37]%N.
  rewrite !orb_true_iff, !andb_true_iff, !N.leb_le, existsb_exists.
  intros [[[H|H]|H]|(d & Hd & E)]; auto.
  apply N.eqb_eq in E. subst d. auto 6.
Qed.

Lemma clean_char_range (c : char) :
  clean_char c ->
  (33 <= c <= 122 \/ c = 32)%N /\ c <> 60%N /\ c <> 62%N /\ c <> 64%N.
Proof.
  intros [Ha Hlf]. apply allowed_cases in Ha. unfold LF in Hlf. cbn [In] in Ha.
  lia.
Qed.

Lemma clean_only_space (c : char) : clean_char c -> only_space c.
Proof.
  intros H Hs. apply clean_char_range in H.
  unfold isspace, between, one_of in Hs. cbn [existsb] in Hs.
  rewrite !orb_true_iff, !andb_true_iff, !N.leb_le, !N.eqb_eq in Hs.
  unfold SPACE. lia.
Qed.

Lemma filter_all (p : char -> bool) (s : text) :
  Forall (fun c => p c = true) s -> filter p s = s.
Proof.
  induction 1 as [|c s Hc _ IH]; [reflexivity|].
  simpl. rewrite Hc, IH. reflexivity.
Qed.

Lemma replace_absent (old new : char) (s : text) :
  Forall (fun c => c <> old) s -> replace old new s = s.
Proof.
  induction 1 as [|c s Hc _ IH]; [reflexivity|].
  unfold replace in *. cbn [map]. rewrite IH.
  apply N.eqb_neq in Hc. rewrite Hc. reflexivity.
Qed.

Lemma step1_clean (s : text) : Forall clean_char s -> step1 s = s.
Proof.
  intro H. apply filter_all. eapply Forall_impl; [|exact H].
  intros c Hc. apply clean_char_range in Hc.
  unfold is_surrogate, between. apply negb_true_iff, andb_false_iff.
  left. apply N.leb_gt. lia.
Qed.

Lemma step2_clean (s : text) : Forall clean_char s -> step2 s = s.
Proof.
  intro H. apply sub_no_first with (first := N.eqb 60).
  - apply needs_first_tag.
  - intros c Hc. rewrite Forall_forall in H. apply H, clean_char_range in Hc.
    apply N.eqb_neq. lia.
Qed.

Lemma step4_clean (s : text) : Forall clean_char s -> step4 s = s.
Proof.
  intro H. unfold step4.
  assert (Ha : forall old new, (8000 < old)%N -> replace old new s = s).
  { intros old new Ho. apply replace_absent.
    eapply Forall_impl; [|exact H].
    intros c Hc. apply clean_char_range in Hc. lia. }
  repeat (rewrite Ha by lia). reflexivity.
Qed.

Lemma step5_clean (s : text) : Forall clean_char s -> step5 nd s = s.
Proof.
  intro H. unfold step5. rewrite Forall_forall in H.
  rewrite (sub_no_first re_bullet [RChr HYPHEN]
             (one_of [8226; 8226; 9702; 9642; 8227]%N) s).
  - apply sub_no_first with (first := N.eqb LF).
    + apply needs_first_numbered.
    + intros c Hc. apply H in Hc. destruct Hc as [_ Hc].
      apply N.eqb_neq. congruence.
  - apply needs_first_bullet.
  - intros c Hc. apply H, clean_char_range in Hc.
    unfold one_of. cbn [existsb].
    rewrite !orb_false_iff, !N.eqb_neq. lia.
Qed.

Lemma step7_clean (s : text) : Forall clean_char s -> step7 s = s.
Proof.
  intro H. apply sub_no_first with (first := N.eqb LF).
  - apply needs_first_wrapped.
  - intros c Hc. rewrite Forall_forall in H. apply H in Hc.
    destruct Hc as [_ Hc]. apply N.eqb_neq. congruence.
Qed.

(** Step 8 changes nothing where the only white space is single spaces. *)
Lemma sub_from_spaces_id :
  forall aft bef,
    Forall only_space aft -> double_space aft = false ->
    sub_from re_spaces [RChr SPACE] bef aft 0 = aft.
Proof.
  induction aft as [|c aft IH]; intros bef Hs Hd; [reflexivity|].
  cbn [sub_from]. unfold re_spaces, ws in *. rewrite match_plus_cls.
  assert (Hd' : double_space aft = false).
  { destruct aft as [|d aft']; [reflexivity|].
    rewrite double_space_cons in Hd. apply orb_false_iff in Hd. apply Hd. }
  specialize (IH (c :: bef) (Forall_inv_tail Hs) Hd').
  destruct (isspace c) eqn:Ec; [|rewrite IH; reflexivity].
  pose proof (Forall_inv Hs Ec) as E. subst c.
  assert (Ht : takewhile isspace aft = [] /\ dropwhile isspace aft = aft).
  { destruct aft as [|d aft']; [split; reflexivity|].
    rewrite double_space_cons, N.eqb_refl in Hd. cbn [andb] in Hd.
    apply orb_false_iff in Hd. destruct Hd as [Hd _].
    assert (Hsd : isspace d = false).
    { destruct (isspace d) eqn:Esd; [|reflexivity].
      pose proof (Forall_inv (Forall_inv_tail Hs) Esd) as E. subst d.
      discriminate. }
    cbn [takewhile dropwhile]. rewrite Hsd. split; reflexivity. }
  destruct Ht as [_ Ht]. cbn [after]. rewrite Ht.
  replace (length (SPACE :: aft) - length aft) with 1 by (cbn [length]; lia).
  cbn [expand flat_map app]. rewrite IH. reflexivity.
Qed.

Lemma step8_clean (s : text) :
  Forall clean_char s -> double_space s = false -> step8 s = s.
Proof.
  intros H Hd. apply sub_from_spaces_id; [|exact Hd].
  eapply Forall_impl; [|exact H]. apply clean_only_space.
Qed.

Lemma step9_id (s : text) : Forall clean_char s -> step9 s = s.
Proof.
  intro H. apply sub_no_first with (first := fun c => negb (allowed c)).
  - apply needs_first_unwanted.
  - intros c Hc. rewrite Forall_forall in H. apply H in Hc.
    destruct Hc as [Hc _]. rewrite Hc. reflexivity.
Qed.

Lemma step10_id (s : text) :
  (forall c, doubled c s -> repeatable c = false) -> step10 s = s.
Proof.
  intro H. apply sub_from_id. intros l1 l2 E. rewrite match_repeated.
  destruct l2 as [|c rest]; [reflexivity|].
  destruct (repeatable c) eqn:Ec; [|reflexivity]. cbn [andb].
  destruct rest as [|d rest']; [reflexivity|]. cbn [takewhile].
  destruct (N.eqb c d) eqn:Ecd; [|reflexivity].
  apply N.eqb_eq in Ecd. subst d.
  rewrite (H c) in Ec; [discriminate|]. exists l1, rest'. exact E.
Qed.

Lemma lstrip_idem (s : text) : lstrip (lstrip s) = lstrip s.
Proof.
  induction s as [|c s IH]; [reflexivity|].
  cbn [lstrip]. destruct (isspace c) eqn:E; [exact IH|].
  cbn [lstrip]. rewrite E. reflexivity.
Qed.

Lemma lstrip_snoc (s : text) (c : char) :
  isspace c = false -> exists l, lstrip (s ++ [c]) = l ++ [c].
Proof.
  intro Hc. induction s as [|d s [l IH]].
  - exists []. cbn. rewrite Hc. reflexivity.
  - cbn [app lstrip]. destruct (isspace d).
    + exists l. exact IH.
    + exists (d :: s). reflexivity.
Qed.

Lemma strip_idem (s : text) : strip (strip s) = strip s.
Proof.
  unfold strip.
  assert (H : lstrip (rstrip (lstrip s)) = rstrip (lstrip s)).
  { remember (lstrip s) as u eqn:Eu.
    destruct u as [|c u']; [reflexivity|].
    assert (Hc : isspace c = false).
    { destruct (isspace c) eqn:E; [|reflexivity].
      pose proof (lstrip_idem s) as Hi. rewrite <- Eu in Hi.
      cbn [lstrip] in Hi. rewrite E in Hi.
      destruct (lstrip_suffix u') as [pre Ep].
      apply (f_equal (@length char)) in Hi. rewrite Ep in Hi at 2.
      cbn [length] in Hi. rewrite length_app in Hi. lia. }
    unfold rstrip. cbn [rev].
    destruct (lstrip_snoc (rev u') c Hc) as [l El]. rewrite El.
    rewrite rev_app_distr. cbn [rev app lstrip]. rewrite Hc. reflexivity. }
  rewrite H. unfold rstrip. rewrite rev_involutive, lstrip_idem. reflexivity.
Qed.

End SecondPass.

(** C1, as the code has it.  A second pass changes cleaned text only through
    the URL step 3, the page-marker step 6 and the white-space step 8: when
    the cleaned text holds no match of the URL pattern, no match of the
    page-marker pattern and no two adjacent spaces, cleaning it again
    returns it unchanged. *)
Theorem clean_text_idempotent_when (nd : char -> bool) (x : text) :
  search re_url (clean_text nd x) = false ->
  search (re_page nd) (clean_text nd x) = false ->
  double_space (clean_text nd x) = false ->
  clean_text nd (clean_text nd x) = clean_text nd x.
Proof.
  intros Hurl Hpage Hsp.
  pose proof (clean_text_clean nd x) as Hc.
  pose proof (clean_text_doubled nd x) as Hd.
  remember (clean_text nd x) as y eqn:Ey.
  unfold clean_text.
  rewrite (step1_clean y Hc), (step2_clean y Hc).
  unfold step3 at 1. rewrite (sub_no_search _ _ y Hurl).
  rewrite (step4_clean y Hc), (step5_clean nd y Hc).
  unfold step6 at 1. rewrite (sub_no_search _ _ y Hpage).
  rewrite (step7_clean y Hc), (step8_clean y Hc Hsp), (step9_id y Hc),
    (step10_id y Hd), (step11_no_lf y (clean_no_lf y Hc)).
  unfold step12. rewrite Ey, clean_text_eq. apply strip_idem.
Qed.

(** An instance: the cleaned text of scenario A. *)
Lemma clean_text_idempotent_when_witness :
  search re_url (clean_text no_nd scenario_a) = false /\
  search (re_page no_nd) (clean_text no_nd scenario_a) = false /\
  double_space (clean_text no_nd scenario_a) = false /\
  clean_text no_nd (clean_text no_nd scenario_a) =
  clean_text no_nd scenario_a.
Proof.
  split; [vm_compute; reflexivity|].
  split; [vm_compute; reflexivity|].
  split; [vm_compute; reflexivity|].
  apply (clean_text_idempotent_when no_nd scenario_a);
    vm_compute; reflexivity.
Defined.

(** Step 9 deletes the quotation mark after step 8 has collapsed the white
    space: the two spaces around it stay, and a second pass collapses
    them. *)
Lemma clean_text_not_idempotent :
  clean_text no_nd quoted_gap = of_string "a  b" /\
  clean_text no_nd (clean_text no_nd quoted_gap) = of_string "a b" /\
  clean_text no_nd (clean_text no_nd quoted_gap) <>
  clean_text no_nd quoted_gap.
Proof.
  split; [vm_compute; reflexivity|].
  split; [vm_compute; reflexivity|].
  vm_compute. discriminate.
Qed.

(** In the same way step 9 can put a URL or a page marker together, which
    only a second pass removes. *)
Lemma second_pass_removes_more :
  clean_text no_nd (of_string "ht" ++ [QUOTE] ++ of_string "tp://x")
  = of_string "http://x" /\
  clean_text no_nd (of_string "http://x") = [] /\
  clean_text no_nd (of_string "Pa" ++ [QUOTE] ++ of_string "ge 1")
  = of_string "Page 1" /\
  clean_text no_nd (of_string "Page 1") = [].
Proof. repeat split; vm_compute; reflexivity. Qed.

(* ================================================================== *)
(** * The pieces a separator cuts a text into *)

Section Pieces.

Import Splitter.

Variable sep : text.
Hypothesis sep_nonempty : sep <> [].

Lemma is_prefix_app (p t : text) :
  Re.is_prefix p t = true -> t = p ++ skipn (length p) t.
Proof.
  revert t. induction p as [|a p IH]; intros t H; [reflexivity|].
  destruct t as [|b t]; [discriminate|].
  cbn in H. apply andb_true_iff in H. destruct H as [E H].
  apply N.eqb_eq in E. subst b. cbn. f_equal. apply IH, H.
Qed.

Lemma re_split_skip :
  forall t skip cur,
    re_split_from sep t skip cur = re_split_from sep (skipn skip t) 0 cur.
Proof.
  induction t as [|c t IH]; intros skip cur.
  - destruct skip; reflexivity.
  - destruct skip as [|n]; [reflexivity|]. cbn [re_split_from skipn]. apply IH.
Qed.

Lemma re_split_step (c : char) (t cur : text) :
  re_split_from sep (c :: t) 0 cur =
  if Re.is_prefix sep (c :: t)
  then rev cur :: sep :: re_split_from sep (skipn (length sep) (c :: t)) 0 []
  else re_split_from sep t 0 (c :: cur).
Proof.
  cbn [re_split_from]. destruct (Re.is_prefix sep (c :: t)); [|reflexivity].
  rewrite re_split_skip. destruct sep as [|a s]; [contradiction|].
  replace (length (a :: s) - 1) with (length s) by (cbn [length]; lia).
  reflexivity.
Qed.

(** The shape of [re.split]'s result: the first piece, a prefix of the
    text, then the separator before each further piece; no piece holds a
    one-character separator. *)
Lemma re_split_spec :
  forall n t cur,
    length t <= n ->
    exists a xs,
      re_split_from sep t 0 cur =
        (rev cur ++ a) :: flat_map (fun x => [sep; x]) xs /\
      (exists post, t = a ++ post) /\
      (forall c, sep = [c] -> ~ In c a) /\
      (forall x, In x xs ->
         (exists pre post, t = pre ++ sep ++ x ++ post) /\
         (forall c, sep = [c] -> ~ In c x)).
Proof.
  induction n as [|n IH]; intros t cur Hlen.
  - destruct t; [|simpl in Hlen; lia].
    exists [], []. cbn. rewrite app_nil_r.
    repeat split; try (intros; tauto); try (exists []; reflexivity);
      contradiction.
  - destruct t as [|c t].
    + exists [], []. cbn. rewrite app_nil_r.
      repeat split; try (intros; tauto); try (exists []; reflexivity);
        contradiction.
    + rewrite re_split_step. destruct (Re.is_prefix sep (c :: t)) eqn:Ep.
      * pose proof (is_prefix_app _ _ Ep) as Et.
        assert (Hl : length (skipn (length sep) (c :: t)) <= n).
        { rewrite length_skipn. destruct sep; [contradiction|].
          cbn [length] in *. lia. }
        destruct (IH _ [] Hl) as (a' & xs' & Er & _ & Ha' & Hxs').
        exists [], (a' :: xs'). rewrite Er, app_nil_r. cbn [rev app flat_map].
        split; [reflexivity|]. split; [exists (c :: t); reflexivity|].
        split; [intros ? _ []|].
        intros x [<-|Hx].
        -- split; [|exact Ha'].
           destruct (IH _ [] Hl) as (a2 & xs2 & Er2 & [post Hp] & _).
           rewrite Er in Er2. injection Er2 as Ea _. subst a2.
           exists [], post. cbn [app]. rewrite <- Hp. exact Et.
        -- destruct (Hxs' x Hx) as [(pre & post & Hp) Hc]. split; [|exact Hc].
           exists (sep ++ pre), post. rewrite <- app_assoc, <- Hp. exact Et.
      * assert (Hl : length t <= n) by (simpl in Hlen; lia).
        destruct (IH t (c :: cur) Hl)
          as (a' & xs' & Er & [post Hp] & Ha' & Hxs').
        exists (c :: a'), xs'. rewrite Er. cbn [rev]. rewrite <- app_assoc.
        split; [reflexivity|].
        split; [exists post; cbn; f_equal; exact Hp|].
        split.
        -- intros c0 E [<-|Hin]; [|exact (Ha' c0 E Hin)].
           subst sep. cbn in Ep. rewrite N.eqb_refl in Ep. discriminate.
        -- intros x Hx. destruct (Hxs' x Hx) as [(pre & post' & Hp') Hc].
           split; [|exact Hc].
           exists (c :: pre), post'. cbn. f_equal. exact Hp'.
Qed.

Lemma pair_up_interleaved (xs : list text) :
  pair_up (flat_map (fun x => [sep; x]) xs) = map (app sep) xs.
Proof.
  induction xs as [|x xs IH]; [reflexivity|].
  cbn [flat_map app pair_up map]. f_equal. exact IH.
Qed.

End Pieces.

Lemma segment_tl (p t : text) :
  segment p t -> forall d, In d (tl p) -> In d (tl t).
Proof.
  intros (pre & post & E) d Hd. subst t.
  destruct pre as [|y pre].
  - destruct p as [|x p]; [contradiction|]. cbn in *.
    apply in_or_app. left. exact Hd.
  - cbn. apply in_or_app. right. apply in_or_app. left.
    destruct p; [contradiction|]. right. exact Hd.
Qed.

(** Every piece of [_split_text_with_regex] is a segment of the text, and
    after its first character holds no one-character separator it was cut
    at. *)
Lemma split_text_with_regex_piece (t separator p : text) :
  In p (Splitter.split_text_with_regex t separator) ->
  segment p t /\ (forall c, separator = [c] -> ~ In c (tl p)).
Proof.
  unfold Splitter.split_text_with_regex. intro H.
  apply filter_In in H. destruct H as [H _].
  destruct separator as [|a s].
  - apply in_map_iff in H. destruct H as (c & <- & Hc).
    split; [|intros ? E; discriminate].
    apply in_split in Hc. destruct Hc as (l1 & l2 & ->).
    exists l1, l2. reflexivity.
  - assert (Hne : a :: s <> []) by discriminate.
    destruct (re_split_spec (a :: s) Hne (length t) t [] (le_n _))
      as (x0 & xs & Er & [post Hp] & Hx0 & Hxs).
    unfold Splitter.re_split in H. rewrite Er in H. cbn [rev app] in H.
    rewrite pair_up_interleaved in H. destruct H as [<-|H].
    + split; [exists [], post; exact Hp|].
      intros c E Hin. apply (Hx0 c E). destruct x0; [contradiction|].
      right. exact Hin.
    + apply in_map_iff in H. destruct H as (x & <- & Hx).
      destruct (Hxs x Hx) as [(pre & post' & Hp') Hc].
      split.
      * exists pre, post'. rewrite <- app_assoc. exact Hp'.
      * intros c E. injection E as -> ->. cbn. apply Hc. reflexivity.
Qed.

(* ================================================================== *)
(** * The pieces in order *)

Section PiecesInOrder.

Import Splitter.

(** [re.split] loses nothing: the first piece and the later ones, each
    after the separator it was cut at, make up the text. *)
Lemma re_split_concat (sep : text) (Hne : sep <> []) :
  forall n t cur,
    length t <= n ->
    exists a xs,
      re_split_from sep t 0 cur =
        (rev cur ++ a) :: flat_map (fun x => [sep; x]) xs /\
      t = a ++ concat (map (app sep) xs).
Proof.
  induction n as [|n IH]; intros t cur Hlen.
  - destruct t; [|simpl in Hlen; lia].
    exists [], []. cbn. rewrite app_nil_r. split; reflexivity.
  - destruct t as [|c t].
    + exists [], []. cbn. rewrite app_nil_r. split; reflexivity.
    + rewrite (re_split_step sep Hne).
      destruct (Re.is_prefix sep (c :: t)) eqn:Ep.
      * pose proof (is_prefix_app _ _ Ep) as Et.
        assert (Hl : length (skipn (length sep) (c :: t)) <= n).
        { rewrite length_skipn. destruct sep; [contradiction|].
          cbn [length] in *. lia. }
        destruct (IH _ [] Hl) as (a' & xs' & Er & Ec).
        exists [], (a' :: xs'). rewrite Er, app_nil_r.
        split; [reflexivity|].
        cbn [map concat app]. rewrite <- app_assoc, <- Ec. exact Et.
      * assert (Hl : length t <= n) by (simpl in Hlen; lia).
        destruct (IH t (c :: cur) Hl) as (a' & xs' & Er & Ec).
        exists (c :: a'), xs'. rewrite Er. cbn [rev]. rewrite <- app_assoc.
        split; [reflexivity|]. cbn. f_equal. exact Ec.
Qed.

Lemma filter_nonempty_headed (c : char) (l : list text) :
  Forall (fun p => firstn 1 p = [c]) l -> filter nonempty l = l.
Proof.
  induction 1 as [|p l Hp _ IH]; [reflexivity|].
  cbn [filter]. destruct p; [discriminate|]. cbn. f_equal. exact IH.
Qed.

Lemma concat_filter_nonempty (l : list text) :
  concat (filter nonempty l) = concat l.
Proof.
  induction l as [|p l IH]; [reflexivity|].
  cbn [filter]. destruct p; cbn; [exact IH|]. f_equal. f_equal. exact IH.
Qed.

Lemma filter_nonempty_all (l : list text) :
  Forall (fun p => p <> []) (filter nonempty l).
Proof.
  apply Forall_forall. intros p Hp. apply filter_In in Hp.
  destruct Hp as [_ Hp]. destruct p; [discriminate|discriminate].
Qed.

(** The pieces of a text make up the text. *)
Lemma pieces_concat (t sep : text) :
  concat (split_text_with_regex t sep) = t.
Proof.
  unfold split_text_with_regex. rewrite concat_filter_nonempty.
  destruct sep as [|a s].
  - induction t as [|c t IH]; [reflexivity|]. cbn. f_equal. exact IH.
  - assert (Hne : a :: s <> []) by discriminate.
    destruct (re_split_concat (a :: s) Hne (length t) t [] (le_n _))
      as (x0 & xs & Er & Ec).
    unfold re_split. rewrite Er. cbn [rev app].
    rewrite pair_up_interleaved. cbn [concat]. symmetry. exact Ec.
Qed.

(** Every piece but the first starts with the separator. *)
Lemma pieces_headed (t : text) (c : char) (s : text) :
  Forall (fun p => firstn 1 p = [c]) (tl (split_text_with_regex t (c :: s))).
Proof.
  unfold split_text_with_regex.
  assert (Hne : c :: s <> []) by discriminate.
  destruct (re_split_concat (c :: s) Hne (length t) t [] (le_n _))
    as (x0 & xs & Er & _).
  unfold re_split. rewrite Er. cbn [rev app].
  rewrite pair_up_interleaved.
  assert (Hm : Forall (fun p => firstn 1 p = [c]) (map (app (c :: s)) xs)).
  { apply Forall_forall. intros p Hp. apply in_map_iff in Hp.
    destruct Hp as (x & <- & _). reflexivity. }
  cbn [filter]. rewrite (filter_nonempty_headed c _ Hm).
  destruct (nonempty x0); cbn [tl]; [exact Hm|].
  destruct (map (app (c :: s)) xs); [constructor|].
  exact (Forall_inv_tail Hm).
Qed.

Lemma firstn_1_app (p q : text) : p <> [] -> firstn 1 (p ++ q) = firstn 1 p.
Proof. destruct p; [contradiction|reflexivity]. Qed.

(** In a list of non-empty pieces that start, the first apart, with [c],
    every piece lies between the start of their join or a [c], and the end
    of it or a [c]. *)
Lemma run_delimited (c : char) :
  forall pieces,
    Forall (fun p => p <> []) pieces ->
    Forall (fun p => firstn 1 p = [c]) (tl pieces) ->
    forall p,
      In p pieces ->
      exists pre post,
        concat pieces = pre ++ p ++ post /\
        (pre = [] \/ firstn 1 p = [c]) /\
        (post = [] \/ firstn 1 post = [c]).
Proof.
  induction pieces as [|q rest IH]; intros Hne Hc p Hin; [contradiction|].
  cbn [tl] in Hc. destruct Hin as [->|Hin].
  - exists [], (concat rest). split; [reflexivity|]. split; [left; reflexivity|].
    destruct rest as [|r rest']; [left; reflexivity|]. right.
    cbn [concat]. rewrite firstn_1_app.
    + exact (Forall_inv Hc).
    + exact (Forall_inv (Forall_inv_tail Hne)).
  - assert (Hc' : Forall (fun p => firstn 1 p = [c]) (tl rest))
      by (destruct rest; [constructor|exact (Forall_inv_tail Hc)]).
    destruct (IH (Forall_inv_tail Hne) Hc' p Hin)
      as (pre & post & E & _ & Hpost).
    exists (q ++ pre), post. cbn [concat]. rewrite E, <- app_assoc.
    split; [reflexivity|]. split; [|exact Hpost].
    right. rewrite Forall_forall in Hc. apply Hc, Hin.
Qed.

(** A non-empty stretch [p] of the join that holds no [c] after its first
    character lies inside one of the pieces. *)
Lemma run_containing (c : char) :
  forall pieces,
    Forall (fun p => p <> []) pieces ->
    Forall (fun p => firstn 1 p = [c]) (tl pieces) ->
    forall pre p post,
      concat pieces = pre ++ p ++ post ->
      p <> [] ->
      ~ In c (tl p) ->
      exists q a b pre' post',
        In q pieces /\ q = a ++ p ++ b /\
        pre = pre' ++ a /\ post = b ++ post'.
Proof.
  induction pieces as [|q rest IH]; intros Hne Hc pre p post E Hp Hno.
  - cbn in E. destruct pre; [|discriminate].
    destruct p; [contradiction|discriminate].
  - cbn [tl] in Hc. cbn [concat] in E.
    assert (Hc' : Forall (fun p => firstn 1 p = [c]) (tl rest))
      by (destruct rest; [constructor|exact (Forall_inv_tail Hc)]).
    apply app_eq_app in E. destruct E as (l & [[Eq El]|[Epre El]]).
    + (* the piece [q] ends inside or after [p] *)
      destruct l as [|x l].
      * rewrite app_nil_r in Eq. cbn [app] in El. subst q.
        destruct (IH (Forall_inv_tail Hne) Hc' [] p post (eq_sym El) Hp Hno)
          as (q' & a & b & pre' & post' & Hin & Eq' & Ea & Eb).
        symmetry in Ea. apply app_eq_nil in Ea. destruct Ea as [-> ->].
        exists q', [], b, pre, post'.
        split; [right; exact Hin|]. split; [exact Eq'|].
        split; [symmetry; apply app_nil_r|exact Eb].
      * apply app_eq_app in El. destruct El as (m & [[Ep Er]|[El Epost]]).
        -- (* [p] goes on after [q] *)
           destruct m as [|y m].
           ++ rewrite app_nil_r in Ep. subst p.
              exists q, pre, [], [], post. rewrite app_nil_r.
              split; [left; reflexivity|]. split; [exact Eq|].
              split; reflexivity.
           ++ exfalso. destruct rest as [|r rest']; [discriminate Er|].
              pose proof (Forall_inv Hc) as Hr. cbn beta in Hr.
              pose proof (Forall_inv (Forall_inv_tail Hne)) as Hrn.
              cbn beta in Hrn.
              destruct r as [|z r]; [contradiction|].
              cbn in Hr. injection Hr as ->.
              cbn in Er. injection Er as -> _.
              apply Hno. subst p. cbn [app tl].
              apply in_or_app. right. left. reflexivity.
        -- exists q, pre, m, [], (concat rest).
           split; [left; reflexivity|].
           split; [rewrite Eq, El; reflexivity|].
           split; [reflexivity|exact Epost].
    + (* [p] starts after [q] *)
      destruct (IH (Forall_inv_tail Hne) Hc' l p post El Hp Hno)
        as (q' & a & b & pre' & post' & Hin & Eq' & Ea & Eb).
      exists q', a, b, (q ++ pre'), post'.
      split; [right; exact Hin|]. split; [exact Eq'|].
      split; [rewrite Epre, Ea, app_assoc; reflexivity|exact Eb].
Qed.

End PiecesInOrder.

(* ================================================================== *)
(** * Merging pieces into chunks *)

Section Merging.

Import Splitter.

Variable cfg : config.

Lemma sep_if_0 (b : bool) : sep_if b 0 = 0.
Proof. destruct b; reflexivity. Qed.

Lemma total_len_cons (p : text) (l : list text) :
  total_len (p :: l) = length p + total_len l.
Proof. unfold total_len. cbn [concat]. apply length_app. Qed.

Lemma total_len_app (l1 l2 : list text) :
  total_len (l1 ++ l2) = total_len l1 + total_len l2.
Proof.
  unfold total_len. rewrite concat_app. apply length_app.
Qed.

Lemma total_len_snoc (l : list text) (d : text) :
  total_len (l ++ [d]) = total_len l + length d.
Proof.
  rewrite total_len_app, total_len_cons. unfold total_len. cbn. lia.
Qed.

(** What the [while] loop leaves of [current_doc]. *)
Lemma pop_front_spec (len : nat) :
  forall cur total kept total',
    total = total_len cur ->
    pop_front cfg 0 len cur total = (kept, total') ->
    total' = total_len kept /\
    exists k,
      kept = skipn k cur /\
      total' <= chunk_overlap cfg /\
      (total' + len <= chunk_size cfg \/ total' = 0) /\
      forall j, j < k ->
        chunk_overlap cfg < total_len (skipn j cur) \/
        (chunk_size cfg < total_len (skipn j cur) + len /\
         0 < total_len (skipn j cur)).
Proof.
  induction cur as [|p rest IH]; intros total kept total' Ht H.
  - cbn in H. injection H as <- <-. split; [exact Ht|].
    exists 0. cbn in Ht. subst total.
    repeat split; try lia.
  - cbn [pop_front] in H. rewrite !sep_if_0, Nat.add_0_r in H.
    destruct ((chunk_overlap cfg <? total)
              || (chunk_size cfg <? total + len) && (0 <? total))%bool eqn:Ec.
    + rewrite total_len_cons in Ht.
      replace (total - (length p + 0)) with (total_len rest) in H by lia.
      destruct (IH _ _ _ eq_refl H) as (Hk & k & Ek & Ho & Hs & Hmax).
      split; [exact Hk|]. exists (S k). cbn [skipn].
      split; [exact Ek|]. split; [exact Ho|]. split; [exact Hs|].
      intros [|j] Hj.
      * cbn [skipn]. rewrite total_len_cons, <- Ht.
        apply orb_true_iff in Ec. destruct Ec as [Ec|Ec].
        -- left. apply Nat.ltb_lt, Ec.
        -- right. apply andb_true_iff in Ec. destruct Ec as [E1 E2].
           apply Nat.ltb_lt in E1, E2. lia.
      * cbn [skipn]. apply Hmax. lia.
    + injection H as <- <-. split; [exact Ht|]. exists 0. cbn [skipn].
      apply orb_false_iff in Ec. destruct Ec as [E1 E2].
      apply Nat.ltb_ge in E1.
      split; [reflexivity|]. split; [exact E1|]. split.
      * apply andb_false_iff in E2. destruct E2 as [E2|E2].
        -- apply Nat.ltb_ge in E2. left. exact E2.
        -- apply Nat.ltb_ge in E2. right. lia.
      * intros j Hj. lia.
Qed.

(** Pieces shorter than the chunk size merge into windows no longer than
    the chunk size. *)
Lemma merge_windows_bound :
  forall splits cur total,
    total = total_len cur ->
    total <= chunk_size cfg ->
    Forall (fun d => length d < chunk_size cfg) splits ->
    Forall (fun w => total_len w <= chunk_size cfg)
           (merge_windows cfg 0 splits cur total).
Proof.
  induction splits as [|d rest IH]; intros cur total Ht Hle Hs.
  - cbn. constructor; [subst total; exact Hle|constructor].
  - pose proof (Forall_inv Hs) as Hd. pose proof (Forall_inv_tail Hs) as Hr.
    cbn beta in Hd.
    cbn [merge_windows]. rewrite !sep_if_0, !Nat.add_0_r.
    destruct (chunk_size cfg <? total + length d) eqn:Ec.
    + destruct cur as [|c0 cur'].
      * cbn in Ht. subst total.
        apply IH; [|lia|exact Hr].
        rewrite total_len_cons. cbn. lia.
      * destruct (pop_front cfg 0 (length d) (c0 :: cur') total)
          as [kept total'] eqn:Ep.
        destruct (pop_front_spec _ _ _ _ _ Ht Ep)
          as (Hk & k & _ & _ & Hfit & _).
        constructor; [subst total; exact Hle|].
        rewrite sep_if_0, Nat.add_0_r.
        apply IH; [rewrite total_len_snoc; lia|lia|exact Hr].
    + apply Nat.ltb_ge in Ec.
      apply IH; [rewrite total_len_snoc; lia|lia|exact Hr].
Qed.

Lemma join_empty_separator (docs : list text) :
  concat (map (fun d => d ++ []) (removelast docs)) ++ last docs [] =
  concat docs.
Proof.
  induction docs as [|d docs IH]; [reflexivity|].
  destruct docs as [|d' docs'].
  - cbn. rewrite app_nil_r. reflexivity.
  - change (removelast (d :: d' :: docs')) with (d :: removelast (d' :: docs')).
    change (last (d :: d' :: docs') []) with (last (d' :: docs') []).
    cbn [map concat]. rewrite app_nil_r, <- app_assoc, IH. reflexivity.
Qed.

Lemma strip_length (s : text) : length (strip s) <= length s.
Proof.
  destruct (strip_segment s) as (pre & post & E).
  rewrite E at 2. rewrite !length_app. lia.
Qed.

Lemma join_docs_length (w : list text) (doc : text) :
  join_docs w [] = Some doc -> length doc <= total_len w.
Proof.
  unfold join_docs. rewrite join_empty_separator.
  pose proof (strip_length (concat w)) as Hl.
  destruct (strip (concat w)); [discriminate|].
  intro H. injection H as <-. exact Hl.
Qed.

Lemma merge_splits_bound (splits : list text) :
  Forall (fun d => length d < chunk_size cfg) splits ->
  Forall (fun doc => length doc <= chunk_size cfg) (merge_splits cfg splits []).
Proof.
  intro Hs. unfold merge_splits. apply Forall_flat_map.
  eapply Forall_impl;
    [|apply (merge_windows_bound splits [] 0 eq_refl (Nat.le_0_l _) Hs)].
  intros w Hw. cbn beta in Hw.
  destruct (join_docs w []) as [doc|] eqn:Ej; [|constructor].
  constructor; [|constructor].
  apply join_docs_length in Ej. lia.
Qed.

Lemma merge_windows_head (separator_len : nat) :
  forall splits cur total,
    exists new rest,
      merge_windows cfg separator_len splits cur total = (cur ++ new) :: rest.
Proof.
  induction splits as [|d splits IH]; intros cur total.
  - exists [], []. cbn. rewrite app_nil_r. reflexivity.
  - cbn [merge_windows].
    destruct (chunk_size cfg <? _).
    + destruct cur as [|c0 cur'].
      * destruct (IH [d] (total + length d)) as (new & rest & E).
        exists (d :: new), rest. exact E.
      * destruct (pop_front cfg separator_len (length d) (c0 :: cur') total).
        exists [], (merge_windows cfg separator_len splits (l ++ [d])
                      (n + length d + sep_if (0 <? length l) separator_len)).
        rewrite app_nil_r. reflexivity.
    + destruct (IH (cur ++ [d])
                  (total + length d
                   + sep_if (0 <? length cur) separator_len))
        as (new & rest & E).
      exists (d :: new), rest. rewrite E, <- app_assoc. reflexivity.
Qed.

(** The windows of a merge run lie on its pieces, one after the other. *)
Lemma merge_windows_tiled (all : list text) :
  forall splits cur total pre,
    total = total_len cur ->
    all = pre ++ cur ++ splits ->
    tiled cfg all pre (merge_windows cfg 0 splits cur total).
Proof.
  induction splits as [|d rest IH]; intros cur total pre Ht Hall.
  - cbn. rewrite app_nil_r in Hall. exact Hall.
  - cbn [merge_windows]. rewrite !sep_if_0, !Nat.add_0_r.
    destruct (chunk_size cfg <? total + length d) eqn:Ec.
    + destruct cur as [|c0 cur'].
      * apply IH; [|exact Hall].
        cbn in Ht. subst total. rewrite total_len_cons. cbn. lia.
      * destruct (pop_front cfg 0 (length d) (c0 :: cur') total)
          as [kept total'] eqn:Ep.
        destruct (pop_front_spec _ _ _ _ _ Ht Ep)
          as (Hk & k & Ek & Ho & Hfit & Hmax).
        rewrite sep_if_0, Nat.add_0_r.
        assert (Hl : tiled cfg all (pre ++ firstn k (c0 :: cur'))
                       (merge_windows cfg 0 rest (kept ++ [d])
                          (total' + length d))).
        { apply IH; [rewrite total_len_snoc; lia|].
          rewrite Hall, Ek, <- !app_assoc.
          rewrite (app_assoc (firstn k (c0 :: cur'))), firstn_skipn.
          reflexivity. }
        destruct (merge_windows_head 0 rest (kept ++ [d]) (total' + length d))
          as (new & ws & E).
        rewrite E in Hl |- *. cbn [tiled].
        exists k, d, rest, new.
        split; [exact Hall|].
        split; [apply Nat.ltb_lt in Ec; lia|].
        split; [unfold carried_over; rewrite <- Ek, <- Hk; auto|].
        split; [rewrite <- Ek, <- app_assoc; reflexivity|exact Hl].
    + apply IH; [rewrite total_len_snoc; lia|].
      rewrite Hall, <- app_assoc. reflexivity.
Qed.

(** With the empty separator, [_join_docs] joins and strips. *)
Lemma join_docs_joined (w : list text) :
  match join_docs w [] with
  | Some doc => [doc]
  | None => []
  end = joined w.
Proof.
  unfold join_docs, joined. rewrite join_empty_separator.
  destruct (strip (concat w)); reflexivity.
Qed.

Lemma merge_splits_joined (splits : list text) :
  merge_splits cfg splits [] =
  flat_map joined (merge_windows cfg 0 splits [] 0).
Proof.
  unfold merge_splits. cbn [length].
  induction (merge_windows cfg 0 splits [] 0) as [|w ws IH]; [reflexivity|].
  cbn [flat_map]. rewrite IH, join_docs_joined. reflexivity.
Qed.

End Merging.

(* ================================================================== *)
(** * The recursive splitter *)

Section Splitting.

Import Splitter.

Variable cfg : config.

(** The separators the recursion started with. *)
Variable all_separators : list text.


Lemma segment_trans (a b c : text) : segment a b -> segment b c -> segment a c.
Proof.
  intros (p1 & q1 & E1) (p2 & q2 & E2). subst b c.
  exists (p2 ++ p1), (q1 ++ q2). rewrite <- !app_assoc. reflexivity.
Qed.

Lemma flush_bound (good : list text) :
  Forall (fun d => length d < chunk_size cfg) good ->
  Forall (fun doc => length doc <= chunk_size cfg) (flush cfg good).
Proof.
  intro H. unfold flush. destruct good; [constructor|].
  apply merge_splits_bound, H.
Qed.

Lemma split_loop_ok (deeper : option (text -> list text)) (t : text) :
  forall pieces good,
    Forall (fun d => length d < chunk_size cfg) good ->
    (forall p, In p pieces -> chunk_size cfg <= length p ->
       forall chunk,
         In chunk match deeper with
                  | None => [p]
                  | Some f => f p
                  end ->
         within_or_uncut cfg all_separators t chunk) ->
    forall chunk,
      In chunk (split_loop cfg deeper pieces good) ->
      within_or_uncut cfg all_separators t chunk.
Proof.
  induction pieces as [|p pieces IH]; intros good Hg Hp chunk Hin.
  - cbn in Hin. left.
    pose proof (flush_bound good Hg) as Hb. rewrite Forall_forall in Hb.
    apply Hb, Hin.
  - cbn [split_loop] in Hin.
    destruct (length p <? chunk_size cfg) eqn:El.
    + apply (IH (good ++ [p])); [| |exact Hin].
      * apply Forall_app. split; [exact Hg|].
        constructor; [apply Nat.ltb_lt, El|constructor].
      * intros q Hq. apply Hp. right. exact Hq.
    + apply Nat.ltb_ge in El.
      apply in_app_or in Hin. destruct Hin as [Hin|Hin].
      * left. pose proof (flush_bound good Hg) as Hb.
        rewrite Forall_forall in Hb. apply Hb, Hin.
      * apply in_app_or in Hin. destruct Hin as [Hin|Hin].
        -- apply (Hp p (or_introl eq_refl) El chunk Hin).
        -- apply (IH []); [constructor| |exact Hin].
           intros q Hq. apply Hp. right. exact Hq.
Qed.

Lemma occurs_char (d : char) (t : text) : In d t -> occurs [d] t = true.
Proof.
  induction t as [|c t IH]; [contradiction|].
  intros [->|H]; cbn [occurs Re.is_prefix].
  - rewrite N.eqb_refl. reflexivity.
  - rewrite (IH H). apply orb_true_r.
Qed.

Lemma piece_delimited (s t p : text) :
  cutting all_separators s ->
  In p (split_text_with_regex t s) ->
  p <> [] /\ delimited all_separators t p.
Proof.
  intros [Hne Hs] Hp. destruct s as [|c s']; [contradiction|].
  pose proof (filter_nonempty_all
                match c :: s' with
                | [] => map (fun c => [c]) t
                | _ :: _ =>
                    match re_split (c :: s') t with
                    | first :: rest => first :: pair_up rest
                    | [] => []
                    end
                end) as Hall.
  change (Forall (fun p => p <> []) (split_text_with_regex t (c :: s')))
    in Hall.
  split; [rewrite Forall_forall in Hall; apply Hall, Hp|].
  destruct (run_delimited c _ Hall (pieces_headed t c s') p Hp)
    as (pre & post & E & Hpre & Hpost).
  rewrite pieces_concat in E. exists pre, post. split; [exact E|].
  cbn in Hs. split.
  - destruct Hpre as [Hpre|Hpre]; [left; exact Hpre|right].
    rewrite Hpre. exact Hs.
  - destruct Hpost as [Hpost|Hpost]; [left; exact Hpost|right].
    rewrite Hpost. exact Hs.
Qed.

Lemma pieces_nonempty (t s : text) :
  Forall (fun p => p <> []) (split_text_with_regex t s).
Proof. unfold split_text_with_regex. apply filter_nonempty_all. Qed.

Lemma delimited_segment (t p : text) :
  delimited all_separators t p -> segment p t.
Proof. intros (pre & post & E & _). exists pre, post. exact E. Qed.

(** A piece between separators of a piece between separators is a piece
    between separators of the text. *)
Lemma delimited_trans (t q p : text) :
  p <> [] ->
  delimited all_separators q p ->
  delimited all_separators t q ->
  delimited all_separators t p.
Proof.
  intros Hp (a' & b' & Eq & Ha' & Hb') (a & b & Et & Ha & Hb).
  exists (a ++ a'), (b' ++ b). split.
  - rewrite Et, Eq, <- !app_assoc. reflexivity.
  - split.
    + destruct Ha' as [->|Ha']; [|right; exact Ha'].
      destruct Ha as [->|Ha]; [left; reflexivity|right].
      cbn [app] in Eq. rewrite Eq, firstn_1_app in Ha; assumption.
    + destruct b' as [|y b'].
      * destruct Hb as [->|Hb]; [left; reflexivity|right; exact Hb].
      * right. destruct Hb' as [Hb'|Hb']; [discriminate|exact Hb'].
Qed.

Lemma split_text_at_ok (fallback : text) :
  cutting all_separators fallback ->
  forall seps t,
    Forall (cutting all_separators) seps ->
    (forall d, In d (tl t) -> In [d] all_separators -> In [d] seps) ->
    forall chunk,
      In chunk (split_text_at cfg fallback seps t) ->
      within_or_uncut cfg all_separators t chunk.
Proof.
  intro Hf.
  induction seps as [|s rest IH]; intros t Hgood Hinv chunk Hin.
  - cbn [split_text_at] in Hin.
    apply (split_loop_ok None t _ [] (Forall_nil _)) in Hin; [exact Hin|].
    intros p Hp _ c [<-|[]].
    destruct (piece_delimited _ _ _ Hf Hp) as [Hne Hd].
    right. split; [exact Hne|]. split; [exact Hd|].
    intros d Hd' Hs.
    apply (Hinv d (segment_tl _ _ (delimited_segment _ _ Hd) d Hd') Hs).
  - cbn [split_text_at] in Hin.
    pose proof (Forall_inv Hgood) as Hs. pose proof (Forall_inv_tail Hgood) as Hr.
    destruct s as [|a s']; [destruct Hs as [Hs _]; contradiction|].
    destruct (occurs (a :: s') t) eqn:Eo.
    + assert (Hpiece : forall p,
                 In p (split_text_with_regex t (a :: s')) ->
                 p <> [] /\ delimited all_separators t p /\
                 forall d, In d (tl p) -> In [d] all_separators ->
                           In [d] rest).
      { intros p Hp. destruct (piece_delimited _ _ _ Hs Hp) as [Hne Hd].
        split; [exact Hne|]. split; [exact Hd|].
        apply split_text_with_regex_piece in Hp.
        destruct Hp as [Hseg Hc].
        intros d Hd' Hsd.
        destruct (Hinv d (segment_tl _ _ Hseg d Hd') Hsd) as [E|Hrd];
          [|exact Hrd].
        exfalso. exact (Hc d E Hd'). }
      destruct rest as [|r rest'].
      * apply (split_loop_ok None t _ [] (Forall_nil _)) in Hin;
          [exact Hin|].
        intros p Hp _ c [<-|[]]. destruct (Hpiece p Hp) as (Hne & Hd & Hrd).
        right. split; [exact Hne|]. split; [exact Hd|].
        intros d Hd' Hsd. exact (Hrd d Hd' Hsd).
      * apply (split_loop_ok
                  (Some (split_text_at cfg fallback (r :: rest'))) t _ []
                  (Forall_nil _)) in Hin; [exact Hin|].
        intros p Hp _ c Hc. destruct (Hpiece p Hp) as (Hne & Hd & Hrd).
        destruct (IH p Hr Hrd c Hc) as [Hle|(Hcn & Hcd & Hu)];
          [left; exact Hle|].
        right. split; [exact Hcn|].
        split; [exact (delimited_trans _ _ _ Hcn Hcd Hd)|exact Hu].
    + apply (IH t Hr); [|exact Hin].
      intros d Hd Hsd. destruct (Hinv d Hd Hsd) as [E|Hrd]; [|exact Hrd].
      exfalso. rewrite E in Eo.
      rewrite occurs_char in Eo; [discriminate|].
      destruct t; [contradiction|]. right. exact Hd.
Qed.

(** A piece that is not shorter than the chunk size is handed on: to the
    remaining separators, or to the result as it is. *)
Lemma split_loop_big (deeper : option (text -> list text)) :
  forall pieces good q chunk,
    In q pieces ->
    chunk_size cfg <= length q ->
    In chunk match deeper with
             | None => [q]
             | Some f => f q
             end ->
    In chunk (split_loop cfg deeper pieces good).
Proof.
  induction pieces as [|p pieces IH]; intros good q chunk Hq Hlen Hc;
    [contradiction|].
  cbn [split_loop]. destruct (length p <? chunk_size cfg) eqn:El.
  - destruct Hq as [->|Hq]; [apply Nat.ltb_lt in El; lia|].
    exact (IH _ q chunk Hq Hlen Hc).
  - apply in_or_app. right. apply in_or_app.
    destruct Hq as [->|Hq]; [left; exact Hc|right].
    exact (IH _ q chunk Hq Hlen Hc).
Qed.

(** A stretch between separators that fills a piece no separator is left
    in after the first character is that piece. *)
Lemma inside_eq (q p a b : text) :
  q = a ++ p ++ b ->
  p <> [] ->
  (a = [] \/ In (firstn 1 p) all_separators) ->
  (b = [] \/ In (firstn 1 b) all_separators) ->
  (forall d, In d (tl q) -> ~ In [d] all_separators) ->
  q = p.
Proof.
  intros E Hp Ha Hb Hu. destruct p as [|x p]; [contradiction|].
  assert (Ea : a = []).
  { destruct Ha as [Ha|Ha]; [exact Ha|]. destruct a as [|y a]; [reflexivity|].
    exfalso. apply (Hu x); [|exact Ha]. subst q. cbn [app tl].
    apply in_or_app. right. left. reflexivity. }
  subst a. cbn [app] in E.
  assert (Eb : b = []).
  { destruct b as [|y b]; [reflexivity|].
    destruct Hb as [Hb|Hb]; [discriminate|].
    exfalso. apply (Hu y); [|exact Hb]. subst q. cbn [app tl].
    apply in_or_app. right. left. reflexivity. }
  subst b. rewrite app_nil_r in E. exact E.
Qed.

Lemma inner_bounds (pre pre' a post b post' p : text) :
  pre = pre' ++ a ->
  post = b ++ post' ->
  (pre = [] \/ In (firstn 1 p) all_separators) ->
  (post = [] \/ In (firstn 1 post) all_separators) ->
  (a = [] \/ In (firstn 1 p) all_separators) /\
  (b = [] \/ In (firstn 1 b) all_separators).
Proof.
  intros Ea Eb Hpre Hpost. split.
  - destruct Hpre as [Hpre|Hpre]; [left|right; exact Hpre].
    rewrite Hpre in Ea. symmetry in Ea. apply app_eq_nil in Ea. tauto.
  - destruct b as [|y b]; [left; reflexivity|right].
    destruct Hpost as [Hpost|Hpost]; [subst post; discriminate|].
    rewrite Eb in Hpost. exact Hpost.
Qed.

(** A piece of the text between separators that no separator cuts and
    that is not shorter than the chunk size is one of the chunks. *)
Lemma split_text_at_whole (fallback : text) :
  cutting all_separators fallback ->
  forall seps t,
    Forall (cutting all_separators) seps ->
    (forall d, In d (tl t) -> In [d] all_separators -> In [d] seps) ->
    forall p,
      p <> [] ->
      uncut all_separators p ->
      delimited all_separators t p ->
      chunk_size cfg <= length p ->
      In p (split_text_at cfg fallback seps t).
Proof.
  intro Hf.
  assert (Hcontain : forall s t p,
             cutting all_separators s -> p <> [] -> uncut all_separators p ->
             delimited all_separators t p ->
             exists q a b,
               In q (split_text_with_regex t s) /\ q = a ++ p ++ b /\
               (a = [] \/ In (firstn 1 p) all_separators) /\
               (b = [] \/ In (firstn 1 b) all_separators)).
  { intros s t p [Hne Hs] Hp Hu (pre & post & Et & Hpre & Hpost).
    destruct s as [|c s']; [contradiction|]. cbn in Hs.
    destruct (run_containing c _ (pieces_nonempty t (c :: s'))
                (pieces_headed t c s') pre p post)
      as (q & a & b & pre' & post' & Hq & Eq & Ea & Eb).
    - rewrite pieces_concat. exact Et.
    - exact Hp.
    - intro Hin. exact (Hu c Hin Hs).
    - exists q, a, b. split; [exact Hq|]. split; [exact Eq|].
      exact (inner_bounds _ _ _ _ _ _ _ Ea Eb Hpre Hpost). }
  induction seps as [|s rest IH]; intros t Hgood Hinv p Hp Hu Hd Hlen.
  - cbn [split_text_at].
    destruct (Hcontain fallback t p Hf Hp Hu Hd)
      as (q & a & b & Hq & Eq & Ha & Hb).
    assert (E : q = p).
    { apply (inside_eq q p a b Eq Hp Ha Hb). intros d Hdq Hs.
      destruct (piece_delimited _ _ _ Hf Hq) as [_ Hqd].
      exact (Hinv d (segment_tl _ _ (delimited_segment _ _ Hqd) d Hdq) Hs). }
    rewrite E in Hq.
    apply (split_loop_big None _ [] p p Hq Hlen). left. reflexivity.
  - cbn [split_text_at].
    pose proof (Forall_inv Hgood) as Hs. pose proof (Forall_inv_tail Hgood) as Hr.
    destruct s as [|c s']; [destruct Hs as [Hs _]; contradiction|].
    destruct (occurs (c :: s') t) eqn:Eo.
    + destruct (Hcontain (c :: s') t p Hs Hp Hu Hd)
        as (q & a & b & Hq & Eq & Ha & Hb).
      assert (Hqlen : chunk_size cfg <= length q)
        by (rewrite Eq, !length_app; lia).
      assert (Hqinv : forall d, In d (tl q) -> In [d] all_separators ->
                                In [d] rest).
      { destruct (piece_delimited _ _ _ Hs Hq) as [_ Hqd].
        pose proof Hq as Hq'. apply split_text_with_regex_piece in Hq'.
        destruct Hq' as [Hseg Hc].
        intros d Hdq Hsd.
        destruct (Hinv d (segment_tl _ _ Hseg d Hdq) Hsd) as [E|Hrd];
          [|exact Hrd].
        exfalso. exact (Hc d E Hdq). }
      destruct rest as [|r rest'].
      * assert (E : q = p).
        { apply (inside_eq q p a b Eq Hp Ha Hb). intros d Hdq Hsd.
          exact (Hqinv d Hdq Hsd). }
        rewrite E in Hq.
        apply (split_loop_big None _ [] p p Hq Hlen). left. reflexivity.
      * apply (split_loop_big
                 (Some (split_text_at cfg fallback (r :: rest'))) _ []
                 q p Hq Hqlen).
        apply (IH q Hr Hqinv p Hp Hu); [|exact Hlen].
        exists a, b. auto.
    + apply (IH t Hr); try assumption.
      intros d Hdt Hsd. destruct (Hinv d Hdt Hsd) as [E|Hrd]; [|exact Hrd].
      exfalso. rewrite E in Eo.
      rewrite occurs_char in Eo; [discriminate|].
      destruct t; [contradiction|]. right. exact Hdt.
Qed.

End Splitting.

(** Where every piece is shorter than the chunk size, [_split_text] is one
    merge run. *)
Lemma split_loop_small (cfg : Splitter.config)
  (deeper : option (text -> list text)) :
  forall pieces good,
    Forall (fun p => length p < Splitter.chunk_size cfg) pieces ->
    Splitter.split_loop cfg deeper pieces good =
    Splitter.flush cfg (good ++ pieces).
Proof.
  induction pieces as [|p pieces IH]; intros good H.
  - cbn. rewrite app_nil_r. reflexivity.
  - cbn [Splitter.split_loop].
    pose proof (Forall_inv H) as Hp. cbn beta in Hp.
    apply Nat.ltb_lt in Hp. rewrite Hp.
    rewrite (IH _ (Forall_inv_tail H)), <- app_assoc. reflexivity.
Qed.

(** Every chunk of [split_documents] is a chunk of the text of one of the
    documents, and has that document's metadata. *)
Lemma split_documents_chunk (metadata : Type) (cfg : Splitter.config)
  (docs : list (document metadata)) (chunk : document metadata) :
  In chunk (split_documents cfg docs) ->
  exists d,
    In d docs /\
    In (page_content chunk) (Splitter.split_text cfg (page_content d)) /\
    doc_metadata chunk = doc_metadata d.
Proof.
  unfold split_documents. intro H. apply in_flat_map in H.
  destruct H as (d & Hd & Hc). apply in_map_iff in Hc.
  destruct Hc as (c & <- & Hc). exists d. cbn. auto.
Qed.

(** The first character of each of the four separators is a separator. *)
Lemma program_separators_cutting :
  Forall (cutting program_separators) program_separators /\
  cutting program_separators (last program_separators []).
Proof.
  split.
  - unfold program_separators.
    repeat (apply Forall_cons; [split; [discriminate|cbn; auto 6]|]).
    apply Forall_nil.
  - split; [discriminate|cbn; auto 6].
Qed.

(** C5, as the code has it.  With the separators of the program and any
    chunk size and overlap, a chunk is no longer than the chunk size, or it
    is a whole piece of the text: lying in the text between separators or
    the ends of the text, and with none of the four separators occurring in
    it after its first character.  The first character can be the separator
    the piece was cut at, which the splitter keeps at the start of the
    piece.  And every whole piece of the text that is not shorter than the
    chunk size is one of the chunks, as it is in the text. *)
Theorem chunk_size_bound (chunk_size chunk_overlap : nat) (t : text) :
  (forall chunk,
      In chunk
         (Splitter.split_text
            (Splitter.Config chunk_size chunk_overlap program_separators) t) ->
      length chunk <= chunk_size \/
      whole_piece program_separators t chunk) /\
  (forall p,
      whole_piece program_separators t p ->
      chunk_size <= length p ->
      In p (Splitter.split_text
              (Splitter.Config chunk_size chunk_overlap program_separators)
              t)).
Proof.
  destruct program_separators_cutting as (Hgood & Hlast).
  split.
  - intros chunk H. unfold Splitter.split_text in H.
    apply (split_text_at_ok _ program_separators) in H;
      [|exact Hlast|exact Hgood|auto].
    unfold within_or_uncut in H. cbn [Splitter.chunk_size] in H.
    destruct H as [H|(Hne & Hd & Hu)]; [left; exact H|].
    right. split; [exact Hne|]. split; [exact Hd|].
    assert (Hno : forall c, In [c] program_separators ->
                            Forall (fun d => d <> c) (tl chunk)).
    { intros c Hc. apply Forall_forall. intros d Hdc E. subst d.
      exact (Hu c Hdc Hc). }
    intros sep [<-|[<-|[<-|[<-|[]]]]]; apply not_occurs, Hno; cbn; auto.
  - intros p (Hne & Hd & Hocc) Hlen. unfold Splitter.split_text.
    apply (split_text_at_whole
             (Splitter.Config chunk_size chunk_overlap program_separators)
             program_separators);
      [exact Hlast|exact Hgood|auto|exact Hne| |exact Hd|exact Hlen].
    intros d Hdp Hs. specialize (Hocc [d] Hs).
    rewrite (occurs_char d (tl p) Hdp) in Hocc. discriminate.
Qed.

(** A chunk longer than the chunk size that holds a separator. *)
Lemma long_word_chunk :
  In (SPACE :: repeat 98%N 1001)
     (Splitter.split_text program_config long_word) /\
  1000 < length (SPACE :: repeat 98%N 1001) /\
  Splitter.occurs (of_string " ") (SPACE :: repeat 98%N 1001) = true.
Proof.
  split; [|split].
  - vm_compute. right. left. reflexivity.
  - apply Nat.ltb_lt. vm_compute. reflexivity.
  - vm_compute. reflexivity.
Qed.

(** An instance: the text of scenario B is a whole piece of itself, of 15
    characters, and is the chunk for the chunk size 10. *)
Lemma scenario_b_whole :
  whole_piece program_separators scenario_b scenario_b.
Proof.
  split; [discriminate|]. split.
  - exists [], []. split; [reflexivity|]. split; left; reflexivity.
  - intros sep [<-|[<-|[<-|[<-|[]]]]]; reflexivity.
Defined.

Lemma chunk_size_bound_witness :
  whole_piece program_separators scenario_b scenario_b /\
  10 <= length scenario_b /\
  In scenario_b
     (Splitter.split_text
        (Splitter.Config 10 3 program_separators) scenario_b).
Proof.
  split; [exact scenario_b_whole|].
  assert (H : 10 <= length scenario_b) by (cbn; lia).
  split; [exact H|].
  exact (proj2 (chunk_size_bound 10 3 scenario_b) scenario_b
           scenario_b_whole H).
Defined.

(* ================================================================== *)
(** * Scenario B *)

(** C3, as the code has it.  None of the four separators occurs in the
    text, so nothing can cut it: it comes back whole, as one chunk of 15
    characters. *)
Theorem scenario_b_one_chunk :
  Splitter.new 10 3 program_separators = Some scenario_b_config /\
  Splitter.split_text scenario_b_config scenario_b = [scenario_b].
Proof. split; reflexivity. Qed.

(** The two chunks of the scenario are not what the splitter returns. *)
Lemma scenario_b_not_two_chunks :
  Splitter.split_text scenario_b_config scenario_b <>
  [of_string "abcdefghij"; of_string "hijklmno"].
Proof. vm_compute. discriminate. Qed.

(* ================================================================== *)
(** * Overlap between consecutive chunks *)

(** [_split_text] cuts the text at the separator [separator_for] names,
    and hands the pieces to its loop. *)
Lemma split_text_at_first (cfg : Splitter.config) (fallback : text) :
  forall seps t,
    exists deeper,
      Splitter.split_text_at cfg fallback seps t =
      Splitter.split_loop cfg deeper
        (Splitter.split_text_with_regex t (separator_for fallback seps t)) [].
Proof.
  induction seps as [|s rest IH]; intro t; cbn [Splitter.split_text_at
                                                separator_for].
  - exists None. reflexivity.
  - destruct s as [|a s']; [exists None; reflexivity|].
    destruct (Splitter.occurs (a :: s') t); [|apply IH].
    eexists. reflexivity.
Qed.

Lemma run_sequence_app (cfg : Splitter.config) (l1 l2 : list text) :
  run_sequence cfg l1 -> run_sequence cfg l2 -> run_sequence cfg (l1 ++ l2).
Proof.
  induction 1 as [|splits chunks Hs _ IH|p chunks Hp _ IH]; intro H2.
  - exact H2.
  - rewrite <- app_assoc. apply seq_run; [exact Hs|apply IH, H2].
  - cbn [app]. apply seq_whole; [exact Hp|apply IH, H2].
Qed.

Lemma flush_sequence (cfg : Splitter.config) (good : list text) :
  Forall (fun d => length d < Splitter.chunk_size cfg) good ->
  run_sequence cfg (Splitter.flush cfg good).
Proof.
  intro H. unfold Splitter.flush. destruct good as [|g good'].
  - apply seq_end.
  - rewrite <- (app_nil_r (Splitter.merge_splits cfg (g :: good') [])).
    apply seq_run; [exact H|apply seq_end].
Qed.

Lemma split_loop_sequence (cfg : Splitter.config)
  (deeper : option (text -> list text)) :
  (forall f p, deeper = Some f -> run_sequence cfg (f p)) ->
  forall pieces good,
    Forall (fun d => length d < Splitter.chunk_size cfg) good ->
    run_sequence cfg (Splitter.split_loop cfg deeper pieces good).
Proof.
  intro Hd. induction pieces as [|p pieces IH]; intros good Hg.
  - cbn. apply flush_sequence, Hg.
  - cbn [Splitter.split_loop].
    destruct (length p <? Splitter.chunk_size cfg) eqn:El.
    + apply IH. apply Forall_app. split; [exact Hg|].
      constructor; [apply Nat.ltb_lt, El|constructor].
    + apply Nat.ltb_ge in El.
      apply run_sequence_app; [apply flush_sequence, Hg|].
      apply run_sequence_app; [|apply IH; constructor].
      destruct deeper as [f|].
      * apply (Hd f p eq_refl).
      * apply seq_whole; [exact El|apply seq_end].
Qed.

Lemma split_text_at_sequence (cfg : Splitter.config) (fallback : text) :
  forall seps t,
    run_sequence cfg (Splitter.split_text_at cfg fallback seps t).
Proof.
  induction seps as [|s rest IH]; intro t; cbn [Splitter.split_text_at].
  - apply split_loop_sequence; [intros; discriminate|constructor].
  - destruct s as [|a s'].
    + apply split_loop_sequence; [intros; discriminate|constructor].
    + destruct (Splitter.occurs (a :: s') t); [|apply IH].
      apply split_loop_sequence; [|constructor].
      intros f p E. destruct rest; [discriminate|].
      injection E as <-. apply IH.
Qed.

(** C4, as the code has it.  A merge run over pieces shorter than the
    chunk size returns the joined and stripped windows of its pieces, the
    empty results left out.  The windows lie on the pieces one after the
    other: the first starts with the first piece and the last ends with the
    last; a window is closed when the piece after it would make it longer
    than the chunk size; the next window starts with the whole pieces
    carried over from the closed one, the longest tail of it of at most
    [chunk_overlap] characters that fits the chunk size together with the
    next piece, and goes on with that piece; no window is longer than the
    chunk size.  A text whose first pieces are all shorter than the chunk
    size is split by one merge run over these pieces, which make up the
    text; and the chunk sequence of any text is made of such merge runs
    and of single pieces that are not shorter than the chunk size. *)
Theorem overlap_is_whole_pieces (cfg : Splitter.config) :
  (forall splits,
      Forall (fun d => length d < Splitter.chunk_size cfg) splits ->
      exists ws,
        Splitter.merge_splits cfg splits [] = flat_map joined ws /\
        tiled cfg splits [] ws /\
        Forall (fun W => total_len W <= Splitter.chunk_size cfg) ws) /\
  (forall t,
      Forall (fun d => length d < Splitter.chunk_size cfg)
             (first_pieces cfg t) ->
      concat (first_pieces cfg t) = t /\
      Splitter.split_text cfg t =
      Splitter.merge_splits cfg (first_pieces cfg t) []) /\
  (forall t, run_sequence cfg (Splitter.split_text cfg t)).
Proof.
  split; [|split; [|intro t; apply split_text_at_sequence]].
  - intros splits Hs. exists (Splitter.merge_windows cfg 0 splits [] 0).
    split; [apply merge_splits_joined|].
    split; [apply merge_windows_tiled; reflexivity|].
    apply merge_windows_bound; [reflexivity|apply Nat.le_0_l|exact Hs].
  - intros t Hs. split; [apply pieces_concat|].
    unfold Splitter.split_text, first_pieces in *.
    destruct (split_text_at_first cfg (last (Splitter.separators cfg) [])
                (Splitter.separators cfg) t) as [deeper E].
    rewrite E, (split_loop_small cfg deeper _ [] Hs). cbn [app].
    destruct (Splitter.split_text_with_regex t _); reflexivity.
Qed.

(** An instance: the four words of 300 letters, under the configuration of
    the program. *)
Lemma overlap_is_whole_pieces_witness :
  Forall (fun d => length d < 1000) (first_pieces program_config four_words) /\
  concat (first_pieces program_config four_words) = four_words /\
  Splitter.split_text program_config four_words =
  Splitter.merge_splits program_config
    (first_pieces program_config four_words) [].
Proof.
  assert (H : Forall (fun d => length d < 1000)
                (first_pieces program_config four_words)).
  { apply Forall_forall. intros d Hd. apply Nat.ltb_lt. revert d Hd.
    apply (proj1 (forallb_forall (fun d => length d <? 1000) _)).
    vm_compute. reflexivity. }
  split; [exact H|].
  exact (proj1 (proj2 (overlap_is_whole_pieces program_config)) four_words H).
Defined.

(** Two consecutive chunks of cleaned text that share nothing: the first
    is within the chunk size, and the second does not start with its last
    150 characters, because no whole piece of it fits in 150 characters. *)
Lemma four_words_no_overlap :
  clean_text no_nd four_words = four_words /\
  Splitter.split_text program_config four_words =
    [three_words; repeat 100%N 300] /\
  length three_words = 902 /\
  trailing 150 three_words = repeat 99%N 150 /\
  Re.is_prefix (trailing 150 three_words) (repeat 100%N 300) = false.
Proof.
  split; [vm_compute; reflexivity|].
  split; [vm_compute; reflexivity|].
  split; [vm_compute; reflexivity|].
  split; vm_compute; reflexivity.
Qed.

(* ================================================================== *)
(** * The loader and the run *)

Section Runs.

Variable nd : char -> bool.
Variable metadata : Type.
Variable suffix : text -> text.
Variable lower : text -> text.

Lemma is_prefix_antisym (a b : text) :
  Re.is_prefix a b = true -> Re.is_prefix b a = true -> a = b.
Proof.
  revert b. induction a as [|c a IH]; intros [|d b] H1 H2;
    try reflexivity; try discriminate.
  cbn in H1, H2. apply andb_true_iff in H1, H2.
  destruct H1 as [E H1]. destruct H2 as [_ H2].
  apply N.eqb_eq in E. subst d. f_equal. apply IH; assumption.
Qed.

Lemma text_eqb_eq (a b : text) : text_eqb a b = true -> a = b.
Proof.
  unfold text_eqb. intro H. apply andb_true_iff in H.
  destruct H. apply is_prefix_antisym; assumption.
Qed.

Lemma ext_in_In (ext : text) (l : list string) :
  ext_in ext l = true -> In ext (map of_string l).
Proof.
  unfold ext_in. intro H. apply existsb_exists in H.
  destruct H as (s & Hs & E). apply text_eqb_eq in E. subst ext.
  apply in_map, Hs.
Qed.

(** Outside the six extensions [load_file] takes its [else] branch. *)
Lemma loader_for_unsupported (ext : text) :
  ~ In ext supported_extensions -> loader_for ext = None.
Proof.
  intro H. unfold loader_for.
  destruct (ext_in ext [".pdf"%string]) eqn:E1.
  { exfalso. apply H. apply ext_in_In in E1. cbn in E1 |- *. tauto. }
  destruct (ext_in ext [".docx"; ".doc"]%string) eqn:E2.
  { exfalso. apply H. apply ext_in_In in E2. cbn in E2 |- *. tauto. }
  destruct (ext_in ext [".html"; ".htm"]%string) eqn:E3.
  { exfalso. apply H. apply ext_in_In in E3. cbn in E3 |- *. tauto. }
  destruct (ext_in ext [".txt"%string]) eqn:E4.
  { exfalso. apply H. apply ext_in_In in E4. cbn in E4 |- *. tauto. }
  reflexivity.
Qed.

Lemma load_file_unsupported (w : world metadata) (file_path : text) :
  ~ In (lower (suffix file_path)) supported_extensions ->
  load_file suffix lower w file_path =
    ([], Raise (UnsupportedFileType (lower (suffix file_path)))).
Proof.
  intro H. apply loader_for_unsupported in H.
  unfold load_file. rewrite H. reflexivity.
Qed.

(** C10.  For a path whose lower-cased suffix is none of the six supported
    extensions, [load_file] raises the unsupported-type error having
    constructed and invoked no loader.  A run whose input line is that path
    has, when the error ends it, only read the line and tested the
    existence of the path; when the path does not exist the run ends after
    the same two actions and the message, without the error. *)
Theorem unsupported_extension (w w' : world metadata) (file_path : text)
  (chunk_size chunk_overlap : nat) :
  ~ In (lower (suffix file_path)) supported_extensions ->
  strip (typed_line w') = file_path ->
  load_file suffix lower w file_path =
    ([], Raise (UnsupportedFileType (lower (suffix file_path)))) /\
  main_with nd suffix lower w' chunk_size chunk_overlap =
    if path_exists w' file_path
    then ([EvInput; EvExists file_path],
          Raise (UnsupportedFileType (lower (suffix file_path))))
    else ([EvInput; EvExists file_path; EvPrint MsgFileNotFound], Ok tt).
Proof.
  intros H Hp. split; [apply load_file_unsupported, H|].
  unfold main_with. rewrite Hp.
  destruct (path_exists w' file_path); [|reflexivity].
  cbn [negb]. rewrite (load_file_unsupported w' file_path H). reflexivity.
Qed.

(** An overlap equal to the chunk size is accepted. *)
Lemma equal_overlap_accepted (n : nat) (seps : list text) :
  Splitter.new n n seps = Some (Splitter.Config n n seps).
Proof. unfold Splitter.new. rewrite Nat.ltb_irrefl. reflexivity. Qed.

(** The numbers of lines 94 and 95 pass the constructor's test: no run of
    the program ends with its error. *)
Lemma main_no_overlap_error (w : world metadata) (a b : nat) :
  snd (main nd suffix lower w) <> Raise (OverlapLargerThanChunk a b).
Proof.
  unfold main, main_with, load_file, preprocess_documents_with,
    new_splitter, construct, load, save_to_markdown, print, emit, raise, ret.
  change (Splitter.new 1000 150 program_separators)
    with (Some (Splitter.Config 1000 150 program_separators)).
  destruct (path_exists w (strip (typed_line w))); cbn;
    [|intro; discriminate].
  destruct (loader_for (lower (suffix (strip (typed_line w)))));
    cbn; [|intro; discriminate].
  destruct (loader_new w l (strip (typed_line w))); cbn;
    [intro; discriminate|].
  destruct (loader_load w l (strip (typed_line w))); cbn;
    [intro; discriminate|].
  destruct (makedirs w _); cbn; [intro; discriminate|].
  destruct (open_write w _); cbn; intro; discriminate.
Qed.

End Runs.

(** An instance: a file with the extension of scenario C, in capitals. *)
Lemma not_supported_xyz :
  ~ In (ascii_lower_text (posix_suffix (of_string "notes.XYZ")))
       supported_extensions.
Proof.
  vm_compute. intro H.
  repeat (destruct H as [H|H]; [discriminate H|]). exact H.
Defined.

Lemma unsupported_extension_witness :
  ~ In (ascii_lower_text (posix_suffix (of_string "notes.XYZ")))
       supported_extensions /\
  strip (typed_line (world_typing (of_string " notes.XYZ ") []))
    = of_string "notes.XYZ" /\
  load_file posix_suffix ascii_lower_text
    (world_typing [] []) (of_string "notes.XYZ") =
    ([], Raise (UnsupportedFileType (of_string ".xyz"))) /\
  main_with no_nd posix_suffix ascii_lower_text
    (world_typing (of_string " notes.XYZ ") []) 1000 150 =
    ([EvInput; EvExists (of_string "notes.XYZ")],
     Raise (UnsupportedFileType (of_string ".xyz"))).
Proof.
  split; [exact not_supported_xyz|].
  split; [reflexivity|].
  exact (unsupported_extension no_nd nat posix_suffix ascii_lower_text
           (world_typing [] []) (world_typing (of_string " notes.XYZ ") [])
           (of_string "notes.XYZ") 1000 150 not_supported_xyz eq_refl).
Defined.
